(** * PlaidML core C++ wrapper (plaidml/core/core.h)

    A shallow embedding of the header-only C++ layer that sits between an
    application and the PlaidML C runtime declared in [plaidml/core/ffi.h]:
    the error bridge ([ffi::str], [ffi::call], [ffi::call_void]), the
    [std::shared_ptr] wrappers with their custom [Deleter], and the value
    classes [TensorShape], [View] and [Buffer].

    The C runtime itself is not part of the header.  Its functions are the
    fields of a [Runtime] record, over a private runtime state [W], so every
    statement about the wrapper holds for any runtime; one concrete runtime,
    [reference_runtime], follows the description of the boundary operations
    and serves the statements that depend on what allocation, mapping and
    write-back do. *)

From Stdlib Require Import ZArith Lia List String.
From stdpp Require Import base gmap list strings pretty.

Local Open Scope Z_scope.

(** ** Machine integers

    The widths are those of a 64-bit target: [size_t] and [uint64_t] have
    64 bits, [int] has 32. *)

(** [size_t] and [uint64_t]: 64-bit unsigned, arithmetic modulo 2^64. *)
Definition to_uint64 (z : Z) : Z := z mod 2 ^ 64.

(** [int64_t]: the two's complement reading of the low 64 bits. *)
Definition to_int64 (z : Z) : Z := (z + 2 ^ 63) mod 2 ^ 64 - 2 ^ 63.

(** [int]: the two's complement reading of the low 32 bits. *)
Definition to_int (z : Z) : Z := (z + 2 ^ 31) mod 2 ^ 32 - 2 ^ 31.

Definition in_int64 (z : Z) : Prop := - 2 ^ 63 <= z < 2 ^ 63.

(** ** Row-major strides (core.h, lines 110-115)

    [size_t stride = 1;
     std::vector<int64_t> strides(sizes.size());
     for (int i = sizes.size() - 1; i >= 0; --i) {
       strides[i] = stride;
       stride *= sizes[i];
     }]

    [stride_loop k] runs the iterations [i = k-1, ..., 0].  The product
    [stride *= sizes[i]] is taken in [size_t] (the [int64_t] operand is
    converted to unsigned), and the store [strides[i] = stride] converts
    back to [int64_t]. *)
Fixpoint stride_loop (k : nat) (stride : Z) (sizes strides : list Z) : list Z :=
  match k with
  | O => strides
  | S i =>
      stride_loop i (to_uint64 (stride * to_uint64 (sizes !!! i))) sizes
                  (<[i := to_int64 stride]> strides)
  end.

(** The loop counter is an [int] initialised from the [size_t] value
    [sizes.size() - 1]; the loop body runs [i0 + 1] times when [i0 >= 0]
    and not at all otherwise. *)
Definition loop_start (n : nat) : Z := to_int (to_uint64 (Z.of_nat n - 1)).

Definition row_major_strides (sizes : list Z) : list Z :=
  stride_loop (Z.to_nat (loop_start (length sizes) + 1)) 1 sizes
              (replicate (length sizes) 0).


(** ** Data that crosses the C boundary *)

(** [enum class DType]; its enumerators are those of the C enumeration
    [plaidml_datatype], so the two [static_cast]s between them are the
    identity. *)
Inductive DType :=
| INVALID | BOOLEAN | INT8 | UINT8 | INT16 | UINT16 | INT32 | UINT32
| INT64 | UINT64 | BFLOAT16 | FLOAT16 | FLOAT32 | FLOAT64.

#[global] Instance DType_eq_dec : EqDecision DType.
Proof. solve_decision. Defined.

(** Raw pointers are integers, [nullptr] is 0.  A pointer to host-visible
    bytes ([void*], [char*]) names the array it points to: memory is a
    finite map from such pointers to the bytes of the array. *)
Definition nullptr : Z := 0.

(** [plaidml_error]: the out-parameter every C entry point fills in;
    [msg] is a [plaidml_string*]. *)
Record plaidml_error := { code : Z; msg : Z }.

(** The C runtime keeps a private state [W] and may read and write
    host-visible memory. *)
Definition foreign (W R : Type) : Type :=
  gmap Z (list Byte.byte) * W -> (plaidml_error * R) * (gmap Z (list Byte.byte) * W).

(** The entry points of [plaidml/core/ffi.h] used by the header.
    [plaidml_string_ptr] gives the characters of the NUL-terminated array
    behind a [plaidml_string*]; neither it nor [plaidml_string_free] takes
    an error record.  Arrays passed as pointer and length are lists. *)
Record Runtime (W : Type) := {
  plaidml_string_ptr : Z -> W -> string;
  plaidml_string_free : Z -> W -> W;
  plaidml_shape_alloc : DType -> Z -> list Z -> list Z -> foreign W Z;
  plaidml_shape_free : Z -> foreign W unit;
  plaidml_shape_get_dtype : Z -> foreign W DType;
  plaidml_shape_get_ndims : Z -> foreign W Z;
  plaidml_shape_get_nbytes : Z -> foreign W Z;
  plaidml_shape_repr : Z -> foreign W Z;
  plaidml_buffer_alloc : string -> Z -> foreign W Z;
  plaidml_buffer_free : Z -> foreign W unit;
  plaidml_buffer_mmap_current : Z -> foreign W Z;
  plaidml_buffer_mmap_discard : Z -> foreign W Z;
  plaidml_view_data : Z -> foreign W Z;
  plaidml_view_size : Z -> foreign W Z;
  plaidml_view_writeback : Z -> foreign W unit;
  plaidml_view_free : Z -> foreign W unit;
}.

Arguments plaidml_string_ptr {W}.
Arguments plaidml_string_free {W}.
Arguments plaidml_shape_alloc {W}.
Arguments plaidml_shape_free {W}.
Arguments plaidml_shape_get_dtype {W}.
Arguments plaidml_shape_get_ndims {W}.
Arguments plaidml_shape_get_nbytes {W}.
Arguments plaidml_shape_repr {W}.
Arguments plaidml_buffer_alloc {W}.
Arguments plaidml_buffer_free {W}.
Arguments plaidml_buffer_mmap_current {W}.
Arguments plaidml_buffer_mmap_discard {W}.
Arguments plaidml_view_data {W}.
Arguments plaidml_view_size {W}.
Arguments plaidml_view_writeback {W}.
Arguments plaidml_view_free {W}.

(** Every crossing of the boundary is recorded, with its arguments, in the
    order in which it happens. *)
Inductive fcall :=
| Cstring_ptr (p : Z)
| Cstring_free (p : Z)
| Cshape_alloc (dtype : DType) (ndims : Z) (sizes strides : list Z)
| Cshape_free (p : Z)
| Cshape_get_dtype (p : Z)
| Cshape_get_ndims (p : Z)
| Cshape_get_nbytes (p : Z)
| Cshape_repr (p : Z)
| Cbuffer_alloc (device : string) (nbytes : Z)
| Cbuffer_free (p : Z)
| Cbuffer_mmap_current (p : Z)
| Cbuffer_mmap_discard (p : Z)
| Cview_data (p : Z)
| Cview_size (p : Z)
| Cview_writeback (p : Z)
| Cview_free (p : Z).

#[global] Instance fcall_eq_dec : EqDecision fcall.
Proof. solve_decision. Defined.

(** A crossing that reads or releases a foreign string. *)
Definition string_event (e : fcall) : Prop :=
  match e with
  | Cstring_ptr _ | Cstring_free _ => True
  | _ => False
  end.

(** ** [std::shared_ptr] with a custom deleter *)

(** The [std::function] stored in a [Deleter<T>] is one of the three free
    functions of the runtime. *)
Inductive free_fn := shape_free | buffer_free | view_free.

#[global] Instance free_fn_eq_dec : EqDecision free_fn.
Proof. solve_decision. Defined.

(** [template <typename T> struct Deleter { std::function<...> fn; ... }] *)
Record Deleter := { fn : free_fn }.

(** The control block shared by all copies of one [shared_ptr]: the owned
    pointer, the deleter and the number of live owners. *)
Record ctrl := { cb_ptr : Z; cb_deleter : Deleter; use_count : nat }.

(** A [shared_ptr] value: the stored pointer and its control block, if any
    (a default-constructed [shared_ptr] has none and stores [nullptr]). *)
Record shared_ptr := { sp_get : Z; sp_ctrl : option nat }.

Definition shared_ptr_empty : shared_ptr := {| sp_get := nullptr; sp_ctrl := None |}.

(** ** Program state and outcomes *)

Record state (W : Type) := {
  st_mem : gmap Z (list Byte.byte);   (* host-visible memory *)
  st_rt : W;                          (* the runtime's private state *)
  st_log : list fcall;                (* boundary crossings so far *)
  st_heap : gmap nat ctrl;            (* live control blocks *)
  st_next : nat;                      (* next control block *)
}.

Arguments st_mem {W}.
Arguments st_rt {W}.
Arguments st_log {W}.
Arguments st_heap {W}.
Arguments st_next {W}.

(** How a piece of C++ ends: normally, by a [std::runtime_error]
    propagating with its [what()] text, by [std::terminate] (an exception
    left a destructor), or in undefined behaviour. *)
Inductive outcome (A : Type) :=
| Ok (a : A)
| Throw (what : string)
| Terminate (what : string)
| Undef.

Arguments Ok {A}.
Arguments Throw {A}.
Arguments Terminate {A}.
Arguments Undef {A}.

Definition M (W A : Type) : Type := state W -> outcome A * state W.

Definition ret {W A} (a : A) : M W A := fun s => (Ok a, s).

Definition throw {W A} (what : string) : M W A := fun s => (Throw what, s).

Definition bind {W A B} (c : M W A) (k : A -> M W B) : M W B := fun s =>
  match (c s).1 with
  | Ok a => k a (c s).2
  | Throw m => (Throw m, (c s).2)
  | Terminate m => (Terminate m, (c s).2)
  | Undef => (Undef, (c s).2)
  end.

Declare Scope cxx_scope.
Delimit Scope cxx_scope with cxx.
Notation "x <- c ;; k" := (bind c (fun x => k))
  (at level 100, c at next level, right associativity) : cxx_scope.
Notation "c ;;; k" := (bind c (fun _ => k))
  (at level 100, right associativity) : cxx_scope.

(** A destructor is [noexcept]: an exception that leaves it ends the
    program. *)
Definition noexcept {W A} (c : M W A) : M W A := fun s =>
  match (c s).1 with
  | Throw m => (Terminate m, (c s).2)
  | _ => c s
  end.

(** A block with one local object: [dtor] runs when the block is left,
    normally or by an exception. *)
Definition scoped {W A} (body : M W A) (dtor : M W unit) : M W A := fun s =>
  match (body s).1 with
  | Ok a =>
      match (dtor (body s).2).1 with
      | Ok _ => (Ok a, (dtor (body s).2).2)
      | Throw m | Terminate m => (Terminate m, (dtor (body s).2).2)
      | Undef => (Undef, (dtor (body s).2).2)
      end
  | Throw m =>
      match (dtor (body s).2).1 with
      | Ok _ => (Throw m, (dtor (body s).2).2)
      | Throw m' | Terminate m' => (Terminate m', (dtor (body s).2).2)
      | Undef => (Undef, (dtor (body s).2).2)
      end
  | Terminate m => (Terminate m, (body s).2)
  | Undef => (Undef, (body s).2)
  end.

(** C++ leaves open in which order the arguments of one call, or the two
    operands of [==], are evaluated; a compiler settles it for each call
    site.  [operands o c1 c2] evaluates both in the order [o] and gives the
    two values in the order in which they are written. *)
Inductive eval_order := left_first | right_first.

Definition operands {W A B} (o : eval_order) (c1 : M W A) (c2 : M W B) : M W (A * B) :=
  match o with
  | left_first => (a <- c1 ;; b <- c2 ;; ret (a, b))%cxx
  | right_first => (b <- c2 ;; a <- c1 ;; ret (a, b))%cxx
  end.

Definition set_heap {W} (h : gmap nat ctrl) (s : state W) : state W :=
  {| st_mem := st_mem s; st_rt := st_rt s; st_log := st_log s;
     st_heap := h; st_next := st_next s |}.

(** [memcpy(dst, src, n)]: defined when both arrays exist, are distinct and
    hold at least [n] bytes. *)
Definition memcpy {W} (dst src : Z) (n : Z) : M W unit := fun s =>
  match st_mem s !! src, st_mem s !! dst with
  | Some from, Some to =>
      if decide (src <> dst /\ 0 <= n <= Z.of_nat (length from) /\ n <= Z.of_nat (length to))
      then (Ok tt,
            {| st_mem := <[dst := take (Z.to_nat n) from ++ drop (Z.to_nat n) to]> (st_mem s);
               st_rt := st_rt s; st_log := st_log s;
               st_heap := st_heap s; st_next := st_next s |})
      else (Undef, s)
  | _, _ => (Undef, s)
  end.

(** [std::string::c_str()] seen as a C string: the characters before the
    first NUL. *)
Fixpoint c_str (s : string) : string :=
  match s with
  | EmptyString => EmptyString
  | String c r => if Ascii.eqb c Ascii.zero then EmptyString else String c (c_str r)
  end.

(** ** The classes of core.h *)

Record TensorShape := { TensorShape_ptr_ : shared_ptr }.

Record View := { View_ptr_ : shared_ptr }.

Record Buffer := { Buffer_ptr_ : shared_ptr; Buffer_shape_ : TensorShape }.

Local Open Scope cxx_scope.

Section Wrapper.

Context {W : Type} (rt : Runtime W).

(** A C entry point applied to its arguments, run on the program state;
    the crossing is appended to the log. *)
Definition invoke {R} (ev : fcall) (f : foreign W R)
  (s : state W) : (plaidml_error * R) * state W :=
  ((f (st_mem s, st_rt s)).1,
   {| st_mem := (f (st_mem s, st_rt s)).2.1;
      st_rt := (f (st_mem s, st_rt s)).2.2;
      st_log := st_log s ++ [ev];
      st_heap := st_heap s; st_next := st_next s |}).

(** *** namespace ffi (lines 16-43) *)

(** [std::string ret{plaidml_string_ptr(ptr)}; plaidml_string_free(ptr);
     return ret;] *)
Definition str (p : Z) : M W string := fun s =>
  (Ok (plaidml_string_ptr rt p (st_rt s)),
   {| st_mem := st_mem s;
      st_rt := plaidml_string_free rt p (st_rt s);
      st_log := st_log s ++ [Cstring_ptr p; Cstring_free p];
      st_heap := st_heap s; st_next := st_next s |}).

(** [plaidml_error err; auto ret = fn(&err, args...);
     if (err.code) throw std::runtime_error(str(err.msg)); return ret;]
    [fn] stands for the entry point already applied to [args...]. *)
Definition call {T} (fn : state W -> (plaidml_error * T) * state W) : M W T := fun s =>
  if decide (code (fn s).1.1 = 0)
  then (Ok (fn s).1.2, (fn s).2)
  else (what <- str (msg (fn s).1.1) ;; throw what) (fn s).2.

(** Same, for an entry point that returns nothing. *)
Definition call_void (fn : state W -> (plaidml_error * unit) * state W) : M W unit := fun s =>
  if decide (code (fn s).1.1 = 0)
  then (Ok tt, (fn s).2)
  else (what <- str (msg (fn s).1.1) ;; throw what) (fn s).2.

(** *** namespace details (lines 45-65) *)

(** The free function a deleter holds, applied to a pointer: the log entry
    of the crossing, the entry point, and the two together. *)
Definition free_event (f : free_fn) (p : Z) : fcall :=
  match f with
  | shape_free => Cshape_free p
  | buffer_free => Cbuffer_free p
  | view_free => Cview_free p
  end.

Definition free_entry (f : free_fn) (p : Z) : foreign W unit :=
  match f with
  | shape_free => plaidml_shape_free rt p
  | buffer_free => plaidml_buffer_free rt p
  | view_free => plaidml_view_free rt p
  end.

Definition free_call (f : free_fn) (p : Z) : state W -> (plaidml_error * unit) * state W :=
  invoke (free_event f p) (free_entry f p).

(** [void operator()(T* ptr) { ffi::call_void(fn, ptr); }] *)
Definition Deleter_call (d : Deleter) (p : Z) : M W unit :=
  call_void (free_call (fn d) p).

(** [std::shared_ptr<T>(ptr, d)]: a new control block with one owner. *)
Definition shared_ptr_ctor (p : Z) (d : Deleter) : M W shared_ptr := fun s =>
  (Ok {| sp_get := p; sp_ctrl := Some (st_next s) |},
   {| st_mem := st_mem s; st_rt := st_rt s; st_log := st_log s;
      st_heap := <[st_next s := {| cb_ptr := p; cb_deleter := d; use_count := 1 |}]> (st_heap s);
      st_next := S (st_next s) |}).

(** Copy construction: one more owner of the same control block. *)
Definition shared_ptr_copy (sp : shared_ptr) : M W shared_ptr := fun s =>
  match sp_ctrl sp with
  | None => (Ok sp, s)
  | Some id =>
      match st_heap s !! id with
      | None => (Undef, s)
      | Some cb =>
          (Ok sp,
           set_heap (<[id := {| cb_ptr := cb_ptr cb; cb_deleter := cb_deleter cb;
                                use_count := S (use_count cb) |}]> (st_heap s)) s)
      end
  end.

(** Destruction of one owner: the count drops by one, and the owner that
    takes it to zero runs the deleter on the owned pointer. *)
Definition shared_ptr_dtor (sp : shared_ptr) : M W unit := fun s =>
  match sp_ctrl sp with
  | None => (Ok tt, s)
  | Some id =>
      match st_heap s !! id with
      | None => (Undef, s)
      | Some cb =>
          if decide (use_count cb <= 1)%nat
          then noexcept (Deleter_call (cb_deleter cb) (cb_ptr cb))
                        (set_heap (delete id (st_heap s)) s)
          else (Ok tt,
                set_heap (<[id := {| cb_ptr := cb_ptr cb; cb_deleter := cb_deleter cb;
                                     use_count := pred (use_count cb) |}]> (st_heap s)) s)
      end
  end.

Definition make_plaidml_shape (p : Z) : M W shared_ptr :=
  shared_ptr_ctor p {| fn := shape_free |}.

Definition make_plaidml_buffer (p : Z) : M W shared_ptr :=
  shared_ptr_ctor p {| fn := buffer_free |}.

Definition make_plaidml_view (p : Z) : M W shared_ptr :=
  shared_ptr_ctor p {| fn := view_free |}.

(** *** class TensorShape (lines 102-141) *)

Definition shape_alloc (dtype : DType) (ndims : Z) (sizes strides : list Z) :=
  invoke (Cshape_alloc dtype ndims sizes strides)
         (plaidml_shape_alloc rt dtype ndims sizes strides).

(** [TensorShape()] *)
Definition TensorShape_default : M W TensorShape :=
  p <- call (shape_alloc INVALID 0 [] []) ;;
  sp <- make_plaidml_shape p ;;
  ret {| TensorShape_ptr_ := sp |}.

(** [TensorShape(DType dtype, const std::vector<int64_t>& sizes)] *)
Definition TensorShape_sizes (dtype : DType) (sizes : list Z) : M W TensorShape :=
  let strides := row_major_strides sizes in
  p <- call (shape_alloc dtype (Z.of_nat (length sizes)) sizes strides) ;;
  sp <- make_plaidml_shape p ;;
  ret {| TensorShape_ptr_ := sp |}.

(** [TensorShape(DType dtype, const std::vector<int64_t>& sizes,
                 const std::vector<int64_t>& strides)] *)
Definition TensorShape_sizes_strides (dtype : DType) (sizes strides : list Z)
  : M W TensorShape :=
  if decide (length sizes <> length strides)
  then throw "Sizes and strides must have the same rank."
  else
    p <- call (shape_alloc dtype (Z.of_nat (length sizes)) sizes strides) ;;
    sp <- make_plaidml_shape p ;;
    ret {| TensorShape_ptr_ := sp |}.

(** [explicit TensorShape(const std::shared_ptr<plaidml_shape>& ptr)] *)
Definition TensorShape_from_ptr (sp : shared_ptr) : M W TensorShape :=
  sp' <- shared_ptr_copy sp ;;
  ret {| TensorShape_ptr_ := sp' |}.

(** The implicit copy constructor and destructor. *)
Definition TensorShape_copy (t : TensorShape) : M W TensorShape :=
  sp <- shared_ptr_copy (TensorShape_ptr_ t) ;;
  ret {| TensorShape_ptr_ := sp |}.

Definition TensorShape_dtor (t : TensorShape) : M W unit :=
  shared_ptr_dtor (TensorShape_ptr_ t).

Definition TensorShape_dtype (t : TensorShape) : M W DType :=
  let p := sp_get (TensorShape_ptr_ t) in
  call (invoke (Cshape_get_dtype p) (plaidml_shape_get_dtype rt p)).

Definition TensorShape_ndims (t : TensorShape) : M W Z :=
  let p := sp_get (TensorShape_ptr_ t) in
  call (invoke (Cshape_get_ndims p) (plaidml_shape_get_ndims rt p)).

Definition TensorShape_nbytes (t : TensorShape) : M W Z :=
  let p := sp_get (TensorShape_ptr_ t) in
  call (invoke (Cshape_get_nbytes p) (plaidml_shape_get_nbytes rt p)).

Definition TensorShape_str (t : TensorShape) : M W string :=
  let p := sp_get (TensorShape_ptr_ t) in
  r <- call (invoke (Cshape_repr p) (plaidml_shape_repr rt p)) ;;
  str r.

(** [bool operator==(const TensorShape& rhs) const { return str() == rhs.str(); }]
    The two [str()] calls are the operands of [==], evaluated in either
    order. *)
Definition TensorShape_eq (o : eval_order) (t rhs : TensorShape) : M W bool :=
  texts <- operands o (TensorShape_str t) (TensorShape_str rhs) ;;
  ret (String.eqb texts.1 texts.2).

Definition TensorShape_as_ptr (t : TensorShape) : Z := sp_get (TensorShape_ptr_ t).

(** *** class View (lines 148-169) *)

Definition View_data (v : View) : M W Z :=
  let p := sp_get (View_ptr_ v) in
  call (invoke (Cview_data p) (plaidml_view_data rt p)).

Definition View_size (v : View) : M W Z :=
  let p := sp_get (View_ptr_ v) in
  call (invoke (Cview_size p) (plaidml_view_size rt p)).

Definition View_writeback (v : View) : M W unit :=
  let p := sp_get (View_ptr_ v) in
  call_void (invoke (Cview_writeback p) (plaidml_view_writeback rt p)).

(** [explicit View(const std::shared_ptr<plaidml_view>& ptr) : ptr_(ptr) {}] *)
Definition View_ctor (sp : shared_ptr) : M W View :=
  sp' <- shared_ptr_copy sp ;;
  ret {| View_ptr_ := sp' |}.

Definition View_dtor (v : View) : M W unit := shared_ptr_dtor (View_ptr_ v).

(** *** class Buffer (lines 176-213) *)

(** [Buffer() = default;]: an empty [ptr_] and a default [TensorShape]. *)
Definition Buffer_default : M W Buffer :=
  shape <- TensorShape_default ;;
  ret {| Buffer_ptr_ := shared_ptr_empty; Buffer_shape_ := shape |}.

(** [Buffer(const std::string& device, const TensorShape& shape)] *)
Definition Buffer_alloc (device : string) (shape : TensorShape) : M W Buffer :=
  nbytes <- TensorShape_nbytes shape ;;
  p <- call (invoke (Cbuffer_alloc (c_str device) nbytes)
                    (plaidml_buffer_alloc rt (c_str device) nbytes)) ;;
  sp <- make_plaidml_buffer p ;;
  shape' <- TensorShape_copy shape ;;
  ret {| Buffer_ptr_ := sp; Buffer_shape_ := shape' |}.

(** [explicit Buffer(plaidml_buffer* ptr, const TensorShape& shape)] *)
Definition Buffer_adopt (p : Z) (shape : TensorShape) : M W Buffer :=
  sp <- make_plaidml_buffer p ;;
  shape' <- TensorShape_copy shape ;;
  ret {| Buffer_ptr_ := sp; Buffer_shape_ := shape' |}.

(** The implicit destructor: members go in reverse order of declaration. *)
Definition Buffer_dtor (b : Buffer) : M W unit :=
  TensorShape_dtor (Buffer_shape_ b) ;;;
  shared_ptr_dtor (Buffer_ptr_ b).

Definition Buffer_as_ptr (b : Buffer) : Z := sp_get (Buffer_ptr_ b).

(** [return View(details::make_plaidml_view(ffi::call<plaidml_view*>(
       plaidml_buffer_mmap_current, ptr_.get())));]
    The temporary [shared_ptr] is copied into the [View] and then
    destroyed. *)
Definition Buffer_mmap_current (b : Buffer) : M W View :=
  let p := sp_get (Buffer_ptr_ b) in
  v <- call (invoke (Cbuffer_mmap_current p) (plaidml_buffer_mmap_current rt p)) ;;
  tmp <- make_plaidml_view v ;;
  view <- View_ctor tmp ;;
  shared_ptr_dtor tmp ;;;
  ret view.

Definition Buffer_mmap_discard (b : Buffer) : M W View :=
  let p := sp_get (Buffer_ptr_ b) in
  v <- call (invoke (Cbuffer_mmap_discard p) (plaidml_buffer_mmap_discard rt p)) ;;
  tmp <- make_plaidml_view v ;;
  view <- View_ctor tmp ;;
  shared_ptr_dtor tmp ;;;
  ret view.

(** [auto view = mmap_current(); memcpy(dst, view.data(), view.size());]
    [view.data()] and [view.size()] are arguments of one call, evaluated in
    either order. *)
Definition Buffer_copy_into (o : eval_order) (b : Buffer) (dst : Z) : M W unit :=
  view <- Buffer_mmap_current b ;;
  scoped (args <- operands o (View_data view) (View_size view) ;;
          memcpy dst args.1 args.2)
         (View_dtor view).

(** [auto view = mmap_discard(); memcpy(view.data(), src, view.size());
     view.writeback();] *)
Definition Buffer_copy_from (o : eval_order) (b : Buffer) (src : Z) : M W unit :=
  view <- Buffer_mmap_discard b ;;
  scoped (args <- operands o (View_data view) (View_size view) ;;
          memcpy args.1 src args.2 ;;;
          View_writeback view)
         (View_dtor view).

(** *** init and struct Settings (lines 70-72, 220-228)

    [plaidml_init], [plaidml_settings_get] and [plaidml_settings_set] are
    entry points of the runtime too; they are taken as they come, applied
    to their arguments and run on the program state, like the [fn] of
    [call]. *)

(** [inline void init() { ffi::call_void(plaidml_init); }] *)
Definition init (plaidml_init : state W -> (plaidml_error * unit) * state W) : M W unit :=
  call_void plaidml_init.

(** [return ffi::str(ffi::call<plaidml_string*>(plaidml_settings_get, key.c_str()));] *)
Definition Settings_get
    (plaidml_settings_get : string -> state W -> (plaidml_error * Z) * state W)
    (key : string) : M W string :=
  p <- call (plaidml_settings_get (c_str key)) ;;
  str p.

(** [ffi::call_void(plaidml_settings_set, key.c_str(), value.c_str());] *)
Definition Settings_set
    (plaidml_settings_set : string -> string -> state W -> (plaidml_error * unit) * state W)
    (key value : string) : M W unit :=
  call_void (plaidml_settings_set (c_str key) (c_str value)).

(** *** Notions used to state properties *)

(** The state after a crossing that reported success, the state after one
    that reported failure (the message has been read and released), and
    the text of that message. *)
Definition after_invoke {R} (ev : fcall) (f : foreign W R) (s : state W) : state W :=
  {| st_mem := (f (st_mem s, st_rt s)).2.1;
     st_rt := (f (st_mem s, st_rt s)).2.2;
     st_log := st_log s ++ [ev];
     st_heap := st_heap s; st_next := st_next s |}.

Definition after_failure {R} (ev : fcall) (f : foreign W R) (s : state W) : state W :=
  {| st_mem := (f (st_mem s, st_rt s)).2.1;
     st_rt := plaidml_string_free rt (msg (f (st_mem s, st_rt s)).1.1)
                                  (f (st_mem s, st_rt s)).2.2;
     st_log := st_log s ++ [ev; Cstring_ptr (msg (f (st_mem s, st_rt s)).1.1);
                            Cstring_free (msg (f (st_mem s, st_rt s)).1.1)];
     st_heap := st_heap s; st_next := st_next s |}.

Definition failure_text {R} (f : foreign W R) (s : state W) : string :=
  plaidml_string_ptr rt (msg (f (st_mem s, st_rt s)).1.1) (f (st_mem s, st_rt s)).2.2.

(** [m] is a message the runtime reported through entry point [f]: in some
    state the call answered with a nonzero code and [m] is the text behind
    its message handle. *)
Definition reported_by {R} (f : foreign W R) (m : string) : Prop :=
  exists s : state W,
    code (f (st_mem s, st_rt s)).1.1 <> 0 /\ m = failure_text f s.

(** A computation that only appends to the log. *)
Definition grows {A} (c : M W A) : Prop :=
  forall s, exists rest, st_log (c s).2 = st_log s ++ rest.

(** Both map operations wrap the view pointer the runtime returns in the
    same way: a temporary [shared_ptr], a copy inside the [View], and the
    destruction of the temporary. *)
Definition wrap_view (v : Z) : M W View :=
  tmp <- make_plaidml_view v ;;
  view <- View_ctor tmp ;;
  shared_ptr_dtor tmp ;;;
  ret view.

Definition view_block (v : Z) : ctrl :=
  {| cb_ptr := v; cb_deleter := {| fn := view_free |}; use_count := 1 |}.

(** The state after a successful map operation. *)
Definition mapped (ev : fcall) (f : foreign W Z) (s : state W) : state W :=
  {| st_mem := (f (st_mem s, st_rt s)).2.1;
     st_rt := (f (st_mem s, st_rt s)).2.2;
     st_log := st_log s ++ [ev];
     st_heap := <[st_next s := view_block (f (st_mem s, st_rt s)).1.2]> (st_heap s);
     st_next := S (st_next s) |}.

(** What a map operation [op], which crosses the boundary through [f]
    with log entry [ev], does in state [s]: on success a single crossing
    and a [View] that is the only owner of the returned view pointer and
    whose destruction frees that pointer; on failure the runtime's message
    and no new control block. *)
Definition view_lifetime (ev : fcall) (f : foreign W Z) (op : M W View) (s : state W) : Prop :=
  (code (f (st_mem s, st_rt s)).1.1 = 0 ->
     exists view,
       (op s).1 = Ok view /\
       sp_get (View_ptr_ view) = (f (st_mem s, st_rt s)).1.2 /\
       st_log (op s).2 = st_log s ++ [ev] /\
       st_heap (op s).2 =
         <[st_next s := view_block (sp_get (View_ptr_ view))]> (st_heap s) /\
       st_heap (View_dtor view (op s).2).2 = delete (st_next s) (st_heap s) /\
       exists tail,
         st_log (View_dtor view (op s).2).2 =
           st_log (op s).2 ++ Cview_free (sp_get (View_ptr_ view)) :: tail /\
         Forall string_event tail) /\
  (code (f (st_mem s, st_rt s)).1.1 <> 0 ->
     (op s).1 = Throw (failure_text f s) /\
     st_heap (op s).2 = st_heap s /\
     st_next (op s).2 = st_next s).

(** *** Owners of one handle

    What a program can do with a handle it got from one of the three
    [make_plaidml_*] wrappers: copy it or destroy a copy. *)

Definition make_plaidml (f : free_fn) (p : Z) : M W shared_ptr :=
  match f with
  | shape_free => make_plaidml_shape p
  | buffer_free => make_plaidml_buffer p
  | view_free => make_plaidml_view p
  end.

Inductive owner_op := op_copy | op_drop.

Fixpoint run_ops (sp : shared_ptr) (ops : list owner_op) : M W unit :=
  match ops with
  | [] => ret tt
  | op_copy :: rest => _ <- shared_ptr_copy sp ;; run_ops sp rest
  | op_drop :: rest => shared_ptr_dtor sp ;;; run_ops sp rest
  end.

End Wrapper.

(** The number of live owners after [ops], starting from [n]; [None] when
    some operation is applied to a handle that has no live owner left,
    which no C++ program can do. *)
Fixpoint owners (n : nat) (ops : list owner_op) : option nat :=
  match ops with
  | [] => Some n
  | op :: rest =>
      match n with
      | O => None
      | S m =>
          match op with
          | op_copy => owners (S (S m)) rest
          | op_drop => owners m rest
          end
      end
  end.

(** The crossings of [view.data()] and [view.size()] on view [v], in the
    order in which the two arguments are evaluated. *)
Definition arg_crossings (o : eval_order) (v : Z) : list fcall :=
  match o with
  | left_first => [Cview_data v; Cview_size v]
  | right_first => [Cview_size v; Cview_data v]
  end.

(** A crossing that reads through view [v] without committing: [data()],
    [size()], or the handling of a reported error. *)
Definition view_read (v : Z) (e : fcall) : Prop :=
  e = Cview_data v \/ e = Cview_size v \/ string_event e.

(** The same, with [writeback()] allowed. *)
Definition view_use (v : Z) (e : fcall) : Prop :=
  e = Cview_writeback v \/ view_read v e.

(** A crossing [copy_into] may make on buffer [p]: the current-mode map,
    reads through a view, the release of a view, or the handling of a
    reported error. *)
Definition read_only_event (p : Z) (e : fcall) : Prop :=
  e = Cbuffer_mmap_current p \/
  (exists v, e = Cview_data v \/ e = Cview_size v \/ e = Cview_free v) \/
  string_event e.

(** A [plaidml_shape_alloc] crossing whose rank is the length of both of
    its arrays; any other crossing qualifies. *)
Definition alloc_args_agree (e : fcall) : Prop :=
  match e with
  | Cshape_alloc _ ndims sizes strides =>
      ndims = Z.of_nat (length sizes) /\ length sizes = length strides
  | _ => True
  end.

(** A computation that does not touch the control blocks, never ends the
    program from a destructor, and makes only crossings that satisfy [P]. *)
Definition confined {W A} (P : fcall -> Prop) (c : M W A) : Prop :=
  forall s,
    (forall m, (c s).1 <> Terminate m) /\
    st_heap (c s).2 = st_heap s /\
    st_next (c s).2 = st_next s /\
    exists rest, st_log (c s).2 = st_log s ++ rest /\ Forall P rest.

(** How often a crossing occurs in a log. *)
Definition count_call (ev : fcall) (log : list fcall) : nat :=
  length (filter (fun e => e = ev) log).

(** ** A reference runtime

    One runtime that follows the description of the boundary operations:
    handles are fresh non-null integers, a failed operation reports code 1
    with a freshly allocated message, a buffer holds device bytes, a view is
    a freshly mapped host-visible array.  The textual form of a shape
    ([repr]) and the byte that fills unspecified memory ([fill]) are left
    open. *)

(** Modelled from the spec: what the runtime keeps for a shape handle,
    "element-type tag, a sequence of per-dimension extents, a sequence of
    per-dimension strides". *)
Record shape_rec := { sh_dtype : DType; sh_sizes : list Z; sh_strides : list Z }.

(** Modelled from the spec: what the runtime keeps for a view handle, the
    buffer it maps and the address of the mapped host-visible array. *)
Record view_rec := { vw_buffer : Z; vw_data : Z }.

(** Modelled from the spec: the private state of the runtime, which is not
    in the header: the live strings, shapes, buffers (with their device
    bytes) and views, and the next unused handle. *)
Record rt_state := {
  rs_next : Z;
  rs_strings : gmap Z string;
  rs_shapes : gmap Z shape_rec;
  rs_buffers : gmap Z (list Byte.byte);
  rs_views : gmap Z view_rec;
}.

(** Modelled from the spec: the runtime before any call. *)
Definition rt_init : rt_state :=
  {| rs_next := 1; rs_strings := ∅; rs_shapes := ∅; rs_buffers := ∅; rs_views := ∅ |}.

(** Modelled from the spec: "code 0 means success and message is absent". *)
Definition no_error : plaidml_error := {| code := 0; msg := nullptr |}.

(** Modelled from the spec: the error record of a failed operation, which
    is not in the header; "nonzero code guarantees message is present". *)
Definition rt_fail {R} (what : string) (dflt : R) : foreign rt_state R := fun mw =>
  (({| code := 1; msg := rs_next mw.2 |}, dflt),
   (mw.1,
    {| rs_next := rs_next mw.2 + 1;
       rs_strings := <[rs_next mw.2 := what]> (rs_strings mw.2);
       rs_shapes := rs_shapes mw.2; rs_buffers := rs_buffers mw.2;
       rs_views := rs_views mw.2 |})).

(** Modelled from the spec: the size in bytes of one element, which the
    runtime uses for "a derived total-byte-size value computed by the
    foreign runtime from type+extents". *)
Definition elem_size (dt : DType) : Z :=
  match dt with
  | INVALID => 0
  | BOOLEAN | INT8 | UINT8 => 1
  | INT16 | UINT16 | BFLOAT16 | FLOAT16 => 2
  | INT32 | UINT32 | FLOAT32 => 4
  | INT64 | UINT64 | FLOAT64 => 8
  end.

(** Modelled from the spec: the "total-byte-size value computed by the
    foreign runtime from type+extents", a [uint64_t]. *)
Definition shape_nbytes (r : shape_rec) : Z :=
  to_uint64 (elem_size (sh_dtype r) * fold_right Z.mul 1 (sh_sizes r)).

Section Reference.

Variable repr : shape_rec -> string.
Variable fill : Byte.byte.

(** Modelled from the spec: [plaidml_string_ptr], the text behind "a
    foreign string handle" (empty for a handle that is not live). *)
Definition ref_string_ptr (p : Z) (w : rt_state) : string :=
  default EmptyString (rs_strings w !! p).

(** Modelled from the spec: [plaidml_string_free], after which the handle
    is no longer live. *)
Definition ref_string_free (p : Z) (w : rt_state) : rt_state :=
  {| rs_next := rs_next w; rs_strings := delete p (rs_strings w);
     rs_shapes := rs_shapes w; rs_buffers := rs_buffers w; rs_views := rs_views w |}.

(** Modelled from the spec: "shape-allocate(type, rank, extents[],
    strides[]) -> shape handle". *)
Definition ref_shape_alloc (dt : DType) (ndims : Z) (sizes strides : list Z)
  : foreign rt_state Z := fun mw =>
  if decide (ndims = Z.of_nat (length sizes) /\ length sizes = length strides)
  then ((no_error, rs_next mw.2),
        (mw.1,
         {| rs_next := rs_next mw.2 + 1; rs_strings := rs_strings mw.2;
            rs_shapes := <[rs_next mw.2 := {| sh_dtype := dt; sh_sizes := sizes;
                                              sh_strides := strides |}]> (rs_shapes mw.2);
            rs_buffers := rs_buffers mw.2; rs_views := rs_views mw.2 |}))
  else rt_fail "invalid shape" nullptr mw.

(** Modelled from the spec: "shape-release(shape handle)". *)
Definition ref_shape_free (p : Z) : foreign rt_state unit := fun mw =>
  match rs_shapes mw.2 !! p with
  | Some _ =>
      ((no_error, tt),
       (mw.1,
        {| rs_next := rs_next mw.2; rs_strings := rs_strings mw.2;
           rs_shapes := delete p (rs_shapes mw.2);
           rs_buffers := rs_buffers mw.2; rs_views := rs_views mw.2 |}))
  | None => rt_fail "invalid shape handle" tt mw
  end.

(** Modelled from the spec: "shape-get-type(shape handle) -> value". *)
Definition ref_shape_get_dtype (p : Z) : foreign rt_state DType := fun mw =>
  match rs_shapes mw.2 !! p with
  | Some r => ((no_error, sh_dtype r), mw)
  | None => rt_fail "invalid shape handle" INVALID mw
  end.

(** Modelled from the spec: "shape-get-rank(shape handle) -> value". *)
Definition ref_shape_get_ndims (p : Z) : foreign rt_state Z := fun mw =>
  match rs_shapes mw.2 !! p with
  | Some r => ((no_error, Z.of_nat (length (sh_sizes r))), mw)
  | None => rt_fail "invalid shape handle" 0 mw
  end.

(** Modelled from the spec: "shape-get-byte-size(shape handle) -> value". *)
Definition ref_shape_get_nbytes (p : Z) : foreign rt_state Z := fun mw =>
  match rs_shapes mw.2 !! p with
  | Some r => ((no_error, shape_nbytes r), mw)
  | None => rt_fail "invalid shape handle" 0 mw
  end.

(** Modelled from the spec: "shape-to-string(shape handle) -> value"; the
    value is a new foreign string holding the textual form. *)
Definition ref_shape_repr (p : Z) : foreign rt_state Z := fun mw =>
  match rs_shapes mw.2 !! p with
  | Some r =>
      ((no_error, rs_next mw.2),
       (mw.1,
        {| rs_next := rs_next mw.2 + 1;
           rs_strings := <[rs_next mw.2 := repr r]> (rs_strings mw.2);
           rs_shapes := rs_shapes mw.2; rs_buffers := rs_buffers mw.2;
           rs_views := rs_views mw.2 |}))
  | None => rt_fail "invalid shape handle" nullptr mw
  end.

(** Modelled from the spec: "buffer-allocate(device id, byte size) ->
    buffer handle"; the device is not checked, the content is unspecified. *)
Definition ref_buffer_alloc (device : string) (nbytes : Z) : foreign rt_state Z := fun mw =>
  if decide (0 <= nbytes)
  then ((no_error, rs_next mw.2),
        (mw.1,
         {| rs_next := rs_next mw.2 + 1; rs_strings := rs_strings mw.2;
            rs_shapes := rs_shapes mw.2;
            rs_buffers := <[rs_next mw.2 := replicate (Z.to_nat nbytes) fill]> (rs_buffers mw.2);
            rs_views := rs_views mw.2 |}))
  else rt_fail "invalid size" nullptr mw.

(** Modelled from the spec: "buffer-release(buffer handle)". *)
Definition ref_buffer_free (p : Z) : foreign rt_state unit := fun mw =>
  match rs_buffers mw.2 !! p with
  | Some _ =>
      ((no_error, tt),
       (mw.1,
        {| rs_next := rs_next mw.2; rs_strings := rs_strings mw.2;
           rs_shapes := rs_shapes mw.2;
           rs_buffers := delete p (rs_buffers mw.2); rs_views := rs_views mw.2 |}))
  | None => rt_fail "invalid buffer handle" tt mw
  end.

(** Modelled from the spec: the address the runtime picks for "a
    temporary host-visible window", not [nullptr] and not in use. *)
Definition fresh_addr (m : gmap Z (list Byte.byte)) : Z := fresh ({[nullptr]} ∪ dom m).

(** Modelled from the spec: "buffer-map-current / buffer-map-discard
    (buffer handle) -> view handle", a new view of buffer [p] whose mapped
    array holds [content]. *)
Definition ref_map (p : Z) (content : list Byte.byte) : foreign rt_state Z := fun mw =>
  ((no_error, rs_next mw.2),
   (<[fresh_addr mw.1 := content]> mw.1,
    {| rs_next := rs_next mw.2 + 1; rs_strings := rs_strings mw.2;
       rs_shapes := rs_shapes mw.2; rs_buffers := rs_buffers mw.2;
       rs_views := <[rs_next mw.2 := {| vw_buffer := p; vw_data := fresh_addr mw.1 |}]>
                     (rs_views mw.2) |})).

(** Modelled from the spec: "a current-mode view's initial content equals
    the buffer's prior content". *)
Definition ref_buffer_mmap_current (p : Z) : foreign rt_state Z := fun mw =>
  match rs_buffers mw.2 !! p with
  | Some content => ref_map p content mw
  | None => rt_fail "invalid buffer handle" nullptr mw
  end.

(** Modelled from the spec: "a discard-mode view's initial content is
    unspecified/undefined until written and committed". *)
Definition ref_buffer_mmap_discard (p : Z) : foreign rt_state Z := fun mw =>
  match rs_buffers mw.2 !! p with
  | Some content => ref_map p (replicate (length content) fill) mw
  | None => rt_fail "invalid buffer handle" nullptr mw
  end.

(** Modelled from the spec: "data() returns a mutable pointer/reference to
    the mapped host-visible region". *)
Definition ref_view_data (v : Z) : foreign rt_state Z := fun mw =>
  match rs_views mw.2 !! v with
  | Some r => ((no_error, vw_data r), mw)
  | None => rt_fail "invalid view handle" nullptr mw
  end.

(** Modelled from the spec: "size() returns the mapped byte length". *)
Definition ref_view_size (v : Z) : foreign rt_state Z := fun mw =>
  match rs_views mw.2 !! v with
  | Some r => ((no_error, Z.of_nat (length (default [] (mw.1 !! vw_data r)))), mw)
  | None => rt_fail "invalid view handle" 0 mw
  end.

(** Modelled from the spec: "commit() flushes discard-mode content to the
    device"; the mapped bytes become the buffer's content. *)
Definition ref_view_writeback (v : Z) : foreign rt_state unit := fun mw =>
  match rs_views mw.2 !! v with
  | Some r =>
      match rs_buffers mw.2 !! vw_buffer r, mw.1 !! vw_data r with
      | Some _, Some bytes =>
          ((no_error, tt),
           (mw.1,
            {| rs_next := rs_next mw.2; rs_strings := rs_strings mw.2;
               rs_shapes := rs_shapes mw.2;
               rs_buffers := <[vw_buffer r := bytes]> (rs_buffers mw.2);
               rs_views := rs_views mw.2 |}))
      | _, _ => rt_fail "view has no buffer" tt mw
      end
  | None => rt_fail "invalid view handle" tt mw
  end.

(** Modelled from the spec: "Release (scope exit) always unmaps,
    regardless of whether commit was called". *)
Definition ref_view_free (v : Z) : foreign rt_state unit := fun mw =>
  match rs_views mw.2 !! v with
  | Some r =>
      ((no_error, tt),
       (delete (vw_data r) mw.1,
        {| rs_next := rs_next mw.2; rs_strings := rs_strings mw.2;
           rs_shapes := rs_shapes mw.2; rs_buffers := rs_buffers mw.2;
           rs_views := delete v (rs_views mw.2) |}))
  | None => rt_fail "invalid view handle" tt mw
  end.

(** Modelled from the spec: the boundary operations of section 6, which
    core.h only declares through [plaidml/core/ffi.h]. *)
Definition reference_runtime : Runtime rt_state :=
  {| plaidml_string_ptr := ref_string_ptr;
     plaidml_string_free := ref_string_free;
     plaidml_shape_alloc := ref_shape_alloc;
     plaidml_shape_free := ref_shape_free;
     plaidml_shape_get_dtype := ref_shape_get_dtype;
     plaidml_shape_get_ndims := ref_shape_get_ndims;
     plaidml_shape_get_nbytes := ref_shape_get_nbytes;
     plaidml_shape_repr := ref_shape_repr;
     plaidml_buffer_alloc := ref_buffer_alloc;
     plaidml_buffer_free := ref_buffer_free;
     plaidml_buffer_mmap_current := ref_buffer_mmap_current;
     plaidml_buffer_mmap_discard := ref_buffer_mmap_discard;
     plaidml_view_data := ref_view_data;
     plaidml_view_size := ref_view_size;
     plaidml_view_writeback := ref_view_writeback;
     plaidml_view_free := ref_view_free |}.


End Reference.

(** The program state before anything has happened, with host memory [m]. *)
Definition initial (m : gmap Z (list Byte.byte)) : state rt_state :=
  {| st_mem := m; st_rt := rt_init; st_log := []; st_heap := ∅; st_next := 0 |}.

(** One choice of the open parts, for running examples: the textual form
    lists the element size, the extents and the strides. *)
Definition demo_name (dt : DType) : string :=
  match dt with
  | INVALID => "invalid" | BOOLEAN => "bool"
  | INT8 => "i8" | UINT8 => "u8" | INT16 => "i16" | UINT16 => "u16"
  | INT32 => "i32" | UINT32 => "u32" | INT64 => "i64" | UINT64 => "u64"
  | BFLOAT16 => "bf16" | FLOAT16 => "f16" | FLOAT32 => "f32" | FLOAT64 => "f64"
  end.

Definition demo_repr (r : shape_rec) : string :=
  demo_name (sh_dtype r) +:+ "(" +:+
  String.concat "," (map pretty (sh_sizes r)) +:+ "):(" +:+
  String.concat "," (map pretty (sh_strides r)) +:+ ")".

Definition demo_runtime : Runtime rt_state := reference_runtime demo_repr Byte.x00.


(** A four-byte buffer on the demo runtime, and a program that maps it and
    then destroys the [Buffer] while the [View] is still in scope. *)
Definition demo_alloc : M rt_state Buffer :=
  shape <- TensorShape_sizes demo_runtime INT8 [4] ;;
  b <- Buffer_alloc demo_runtime "cpu" shape ;;
  TensorShape_dtor demo_runtime shape ;;;
  ret b.

Definition demo_buffer : Buffer :=
  {| Buffer_ptr_ := {| sp_get := 2; sp_ctrl := Some 1%nat |};
     Buffer_shape_ := {| TensorShape_ptr_ := {| sp_get := 1; sp_ctrl := Some 0%nat |} |} |}.

(** A failing crossing: the shape handle 5 does not exist. *)
Definition bad_nbytes : state rt_state -> (plaidml_error * Z) * state rt_state :=
  invoke (Cshape_get_nbytes 5) (plaidml_shape_get_nbytes demo_runtime 5).

(** A runtime without settings: every lookup fails with a message. *)
Definition demo_settings_get (key : string) (s : state rt_state)
  : (plaidml_error * Z) * state rt_state :=
  ((rt_fail ("no such setting: " +:+ key) nullptr (st_mem s, st_rt s)).1,
   {| st_mem := st_mem s;
      st_rt := (rt_fail ("no such setting: " +:+ key) nullptr (st_mem s, st_rt s)).2.2;
      st_log := st_log s; st_heap := st_heap s; st_next := st_next s |}).

(** Host memory with a four-byte payload at 100 and a four-byte
    destination at 200. *)
Definition demo_memory : gmap Z (list Byte.byte) :=
  {[ 100 := [Byte.x01; Byte.x02; Byte.x03; Byte.x04];
     200 := [Byte.xff; Byte.xff; Byte.xff; Byte.xff] ]}.

Definition view_outlives_buffer : M rt_state View :=
  b <- demo_alloc ;;
  view <- Buffer_mmap_current demo_runtime b ;;
  Buffer_dtor demo_runtime b ;;;
  ret view.

(** * Properties *)

(** *** Arithmetic facts *)

Lemma to_int64_range z : in_int64 (to_int64 z).
Proof. unfold in_int64, to_int64. pose proof (Z.mod_pos_bound (z + 2 ^ 63) (2 ^ 64)). lia. Qed.

Lemma to_int64_id z : in_int64 z -> to_int64 z = z.
Proof.
  unfold in_int64, to_int64. intros Hz.
  rewrite Z.mod_small by lia. lia.
Qed.

Lemma to_int64_congr a b : a mod 2 ^ 64 = b mod 2 ^ 64 -> to_int64 a = to_int64 b.
Proof.
  unfold to_int64. intros Hab.
  rewrite <- (Zplus_mod_idemp_l a), <- (Zplus_mod_idemp_l b), Hab. reflexivity.
Qed.

Lemma to_int64_mod z : to_int64 z mod 2 ^ 64 = z mod 2 ^ 64.
Proof.
  unfold to_int64.
  rewrite Zminus_mod, Z.mod_mod by lia.
  rewrite <- Zminus_mod. f_equal. lia.
Qed.

Lemma stride_step_congr stride size :
  to_int64 (to_uint64 (stride * to_uint64 size)) = to_int64 (to_int64 stride * size).
Proof.
  apply to_int64_congr. unfold to_uint64.
  rewrite Z.mod_mod by lia.
  rewrite Zmult_mod_idemp_r.
  rewrite <- (Zmult_mod_idemp_l (to_int64 stride)), to_int64_mod.
  rewrite Zmult_mod_idemp_l. reflexivity.
Qed.

Lemma loop_start_small (n : nat) :
  Z.of_nat n <= 2 ^ 31 -> loop_start n + 1 = Z.of_nat n.
Proof.
  unfold loop_start, to_int, to_uint64. intros Hn.
  destruct (decide (n = O)) as [->|Hpos].
  - reflexivity.
  - rewrite (Z.mod_small (Z.of_nat n - 1)) by lia.
    rewrite Z.mod_small by lia. lia.
Qed.

(** *** The loop *)

Lemma stride_loop_length k stride sizes strides :
  length (stride_loop k stride sizes strides) = length strides.
Proof.
  revert stride strides. induction k as [|i IH]; intros stride strides; simpl.
  - reflexivity.
  - rewrite IH. apply length_insert.
Qed.

Lemma stride_loop_above k : forall stride sizes strides (j : nat),
  (k <= j)%nat -> stride_loop k stride sizes strides !! j = strides !! j.
Proof.
  induction k as [|i IH]; intros stride sizes strides j Hj; simpl.
  - reflexivity.
  - rewrite IH by lia. apply list_lookup_insert_ne. lia.
Qed.

Lemma stride_loop_top i stride sizes strides :
  (i < length strides)%nat ->
  stride_loop (S i) stride sizes strides !! i = Some (to_int64 stride).
Proof.
  intros Hi. simpl. rewrite stride_loop_above by lia.
  apply list_lookup_insert_eq. exact Hi.
Qed.

Lemma stride_loop_S i stride sizes strides :
  stride_loop (S i) stride sizes strides =
  stride_loop i (to_uint64 (stride * to_uint64 (sizes !!! i))) sizes
              (<[i := to_int64 stride]> strides).
Proof. reflexivity. Qed.

Lemma stride_loop_step k : forall stride sizes strides (j : nat) x y,
  (k <= length strides)%nat -> (S j < k)%nat ->
  stride_loop k stride sizes strides !! j = Some x ->
  stride_loop k stride sizes strides !! S j = Some y ->
  x = to_int64 (y * sizes !!! S j).
Proof.
  induction k as [|i IH]; intros stride sizes strides j x y Hk Hj Hx Hy.
  - lia.
  - destruct (decide (S j = i)) as [<-|Hne].
    + rewrite stride_loop_top in Hy by lia.
      rewrite stride_loop_S, stride_loop_top in Hx by (rewrite length_insert; lia).
      inversion Hx; inversion Hy; subst. apply stride_step_congr.
    + rewrite stride_loop_S in Hx, Hy.
      eapply IH; [| |exact Hx|exact Hy]; [rewrite length_insert|]; lia.
Qed.

Lemma row_major_strides_length sizes :
  length (row_major_strides sizes) = length sizes.
Proof.
  unfold row_major_strides. rewrite stride_loop_length. apply length_replicate.
Qed.

Lemma row_major_strides_last sizes :
  Z.of_nat (length sizes) <= 2 ^ 31 -> sizes <> [] ->
  row_major_strides sizes !! pred (length sizes) = Some 1.
Proof.
  intros Hlen Hne. unfold row_major_strides.
  rewrite loop_start_small, Nat2Z.id by exact Hlen.
  destruct (length sizes) as [|n] eqn:Hn.
  - destruct sizes; [congruence | discriminate].
  - simpl pred. rewrite stride_loop_top by (rewrite length_replicate; lia).
    reflexivity.
Qed.

Lemma row_major_strides_step sizes (i : nat) x y :
  Z.of_nat (length sizes) <= 2 ^ 31 ->
  row_major_strides sizes !! i = Some x ->
  row_major_strides sizes !! S i = Some y ->
  x = to_int64 (y * sizes !!! S i).
Proof.
  intros Hlen Hx Hy.
  assert (S i < length sizes)%nat as Hi.
  { rewrite <- row_major_strides_length. eapply lookup_lt_Some, Hy. }
  unfold row_major_strides in Hx, Hy.
  rewrite loop_start_small, Nat2Z.id in Hx, Hy by exact Hlen.
  eapply stride_loop_step; [| |exact Hx|exact Hy].
  - rewrite length_replicate. lia.
  - exact Hi.
Qed.

(** ** The wrapper, over any runtime *)

Section WrapperFacts.

Context {W : Type} (rt : Runtime W).

(** *** The error bridge *)

Lemma call_ok {T} (fn : state W -> (plaidml_error * T) * state W) s :
  code (fn s).1.1 = 0 -> call rt fn s = (Ok (fn s).1.2, (fn s).2).
Proof. intros H. unfold call. rewrite decide_True by exact H. reflexivity. Qed.

Lemma call_err {T} (fn : state W -> (plaidml_error * T) * state W) s :
  code (fn s).1.1 <> 0 ->
  call rt fn s =
  (Throw (plaidml_string_ptr rt (msg (fn s).1.1) (st_rt (fn s).2)),
   (str rt (msg (fn s).1.1) (fn s).2).2).
Proof. intros H. unfold call. rewrite decide_False by exact H. reflexivity. Qed.

Lemma call_void_ok (fn : state W -> (plaidml_error * unit) * state W) s :
  code (fn s).1.1 = 0 -> call_void rt fn s = (Ok tt, (fn s).2).
Proof. intros H. unfold call_void. rewrite decide_True by exact H. reflexivity. Qed.

Lemma call_void_err (fn : state W -> (plaidml_error * unit) * state W) s :
  code (fn s).1.1 <> 0 ->
  call_void rt fn s =
  (Throw (plaidml_string_ptr rt (msg (fn s).1.1) (st_rt (fn s).2)),
   (str rt (msg (fn s).1.1) (fn s).2).2).
Proof. intros H. unfold call_void. rewrite decide_False by exact H. reflexivity. Qed.

Lemma count_call_app ev l1 l2 :
  count_call ev (l1 ++ l2) = (count_call ev l1 + count_call ev l2)%nat.
Proof. unfold count_call. rewrite filter_app, length_app. reflexivity. Qed.

Lemma count_call_str ev p :
  count_call ev [Cstring_ptr p; Cstring_free p] =
  if decide (ev = Cstring_free p) then 1%nat
  else if decide (ev = Cstring_ptr p) then 1%nat else 0%nat.
Proof.
  unfold count_call. rewrite !filter_cons, filter_nil.
  repeat case_decide; subst; try congruence; reflexivity.
Qed.

Lemma call_void_is_call (fnv : state W -> (plaidml_error * unit) * state W) s :
  call_void rt fnv s = call rt fnv s.
Proof.
  unfold call_void, call. case_decide; [|reflexivity].
  destruct (fnv s).1.2. reflexivity.
Qed.

(** C2. [ffi::call_void] behaves as [ffi::call] does on an operation that
    returns nothing.  For every operation [fn] run through the bridge, with
    error record [e] and result [r]: when [e.code] is zero the result is
    returned unchanged and the state is exactly the one the operation left
    (no string operation happens); when [e.code] is nonzero and the message
    text behind [e.msg] is [X], a failure with text [X] is raised, and the
    only crossings made are one read and one release of [e.msg]: it is
    released exactly once. *)
Theorem error_bridge {T} (fn : state W -> (plaidml_error * T) * state W)
    (s s1 : state W) (e : plaidml_error) (r : T) (X : string) :
  fn s = ((e, r), s1) ->
  plaidml_string_ptr rt (msg e) (st_rt s1) = X ->
  (forall fnv s0, call_void rt fnv s0 = call rt fnv s0) /\
  (code e = 0 -> call rt fn s = (Ok r, s1)) /\
  (code e <> 0 ->
     (call rt fn s).1 = Throw X /\
     st_log (call rt fn s).2 = st_log s1 ++ [Cstring_ptr (msg e); Cstring_free (msg e)] /\
     count_call (Cstring_free (msg e)) (st_log (call rt fn s).2) =
       S (count_call (Cstring_free (msg e)) (st_log s1)) /\
     st_rt (call rt fn s).2 = plaidml_string_free rt (msg e) (st_rt s1) /\
     st_mem (call rt fn s).2 = st_mem s1 /\
     st_heap (call rt fn s).2 = st_heap s1).
Proof.
  intros Hfn HX. split; [exact call_void_is_call|]. split.
  - intros Hc.
    rewrite call_ok by (rewrite Hfn; exact Hc). rewrite Hfn. reflexivity.
  - intros Hc.
    rewrite call_err by (rewrite Hfn; exact Hc).
    rewrite Hfn. simpl. rewrite HX.
    repeat split; try reflexivity.
    rewrite count_call_app, count_call_str, decide_True by reflexivity. lia.
Qed.

(** *** TensorShape construction *)

Lemma invoke_log {R} ev (f : foreign W R) s :
  st_log (invoke ev f s).2 = st_log s ++ [ev].
Proof. reflexivity. Qed.

Lemma call_log {R} ev (f : foreign W R) s :
  exists rest, st_log (call rt (invoke ev f) s).2 = st_log s ++ ev :: rest.
Proof.
  destruct (decide (code (invoke ev f s).1.1 = 0)) as [Hc|Hc].
  - rewrite call_ok by exact Hc. exists []. reflexivity.
  - rewrite call_err by exact Hc. eexists. simpl.
    rewrite <- app_assoc. reflexivity.
Qed.

Lemma bind_log_first {A B} (c : M W A) (k : A -> M W B) s ev :
  (exists rest, st_log (c s).2 = st_log s ++ ev :: rest) ->
  (forall a s', exists rest, st_log (k a s').2 = st_log s' ++ rest) ->
  exists rest, st_log (bind c k s).2 = st_log s ++ ev :: rest.
Proof.
  intros [r1 H1] Hk. unfold bind.
  destruct (c s).1 as [a| | |]; simpl; eauto.
  destruct (Hk a (c s).2) as [r2 H2]. exists (r1 ++ r2).
  rewrite H2, H1, <- app_assoc. reflexivity.
Qed.

Lemma shared_ptr_ctor_log p d (s : state W) :
  st_log (shared_ptr_ctor p d s).2 = st_log s.
Proof. reflexivity. Qed.

Lemma make_shape_ret_log p (s' : state W) :
  exists rest,
    st_log ((sp <- make_plaidml_shape p ;; ret {| TensorShape_ptr_ := sp |}) s').2
    = st_log s' ++ rest.
Proof. exists []. simpl. rewrite app_nil_r. reflexivity. Qed.

(** C5. When the extents and strides differ in length the constructor
    raises the rank failure and leaves the state as it was: the log of
    boundary crossings is unchanged, so [plaidml_shape_alloc] is not
    invoked. *)
Theorem rank_mismatch_raises_locally (dtype : DType) (sizes strides : list Z) (s : state W) :
  length sizes <> length strides ->
  TensorShape_sizes_strides rt dtype sizes strides s =
    (Throw "Sizes and strides must have the same rank.", s) /\
  st_log (TensorShape_sizes_strides rt dtype sizes strides s).2 = st_log s.
Proof.
  intros Hne. unfold TensorShape_sizes_strides.
  rewrite decide_True by exact Hne. split; reflexivity.
Qed.

(** C4 (amended). For extents lists of at most 2^31 entries the strides
    the extents-only constructor computes have the length of the extents,
    the last one is 1, and each other one is the product of the next stride
    and the next extent taken in 64-bit two's complement arithmetic, hence
    the exact product whenever that fits in [int64_t]; these strides are
    the ones passed to [plaidml_shape_alloc], which is the first crossing
    the constructor makes. *)
Theorem row_major_stride_law (dtype : DType) (sizes : list Z) (s : state W) :
  Z.of_nat (length sizes) <= 2 ^ 31 ->
  let strides := row_major_strides sizes in
  length strides = length sizes /\
  (sizes <> [] -> strides !! pred (length sizes) = Some 1) /\
  (forall (i : nat) x y, strides !! i = Some x -> strides !! S i = Some y ->
     x = to_int64 (y * sizes !!! S i)) /\
  (forall (i : nat) x y, strides !! i = Some x -> strides !! S i = Some y ->
     in_int64 (y * sizes !!! S i) -> x = y * sizes !!! S i) /\
  exists rest,
    st_log (TensorShape_sizes rt dtype sizes s).2 =
    st_log s ++ Cshape_alloc dtype (Z.of_nat (length sizes)) sizes strides :: rest.
Proof.
  intros Hlen strides. subst strides.
  split; [apply row_major_strides_length|].
  split; [apply row_major_strides_last; exact Hlen|].
  split; [intros i x y; apply row_major_strides_step; exact Hlen|].
  split.
  - intros i x y Hx Hy Hin.
    rewrite <- (to_int64_id _ Hin). eapply row_major_strides_step; eauto.
  - unfold TensorShape_sizes.
    apply bind_log_first; [apply call_log | apply make_shape_ret_log].
Qed.

(** *** Crossings made through the bridge, spelled out *)

Lemma call_invoke {R} ev (f : foreign W R) s :
  call rt (invoke ev f) s =
  if decide (code (f (st_mem s, st_rt s)).1.1 = 0)
  then (Ok (f (st_mem s, st_rt s)).1.2, after_invoke ev f s)
  else (Throw (failure_text rt f s), after_failure rt ev f s).
Proof.
  unfold call, invoke, after_invoke, after_failure, failure_text, str, bind, throw.
  simpl. case_decide; [reflexivity|]. rewrite <- app_assoc. reflexivity.
Qed.

Lemma call_void_invoke ev (f : foreign W unit) s :
  call_void rt (invoke ev f) s =
  if decide (code (f (st_mem s, st_rt s)).1.1 = 0)
  then (Ok tt, after_invoke ev f s)
  else (Throw (failure_text rt f s), after_failure rt ev f s).
Proof.
  unfold call_void, invoke, after_invoke, after_failure, failure_text, str, bind, throw.
  simpl. case_decide; [reflexivity|]. rewrite <- app_assoc. reflexivity.
Qed.

(** *** The release path *)

Lemma Deleter_call_spec d p s :
  Deleter_call rt d p s =
  if decide (code (free_entry rt (fn d) p (st_mem s, st_rt s)).1.1 = 0)
  then (Ok tt, after_invoke (free_event (fn d) p) (free_entry rt (fn d) p) s)
  else (Throw (failure_text rt (free_entry rt (fn d) p) s),
        after_failure rt (free_event (fn d) p) (free_entry rt (fn d) p) s).
Proof. unfold Deleter_call, free_call. apply call_void_invoke. Qed.

Lemma shared_ptr_dtor_last sp id cb s :
  sp_ctrl sp = Some id -> st_heap s !! id = Some cb -> use_count cb = 1%nat ->
  shared_ptr_dtor rt sp s =
  noexcept (Deleter_call rt (cb_deleter cb) (cb_ptr cb)) (set_heap (delete id (st_heap s)) s).
Proof.
  intros Hsp Hcb Hone. unfold shared_ptr_dtor. rewrite Hsp, Hcb.
  rewrite decide_True by lia. reflexivity.
Qed.

Lemma shared_ptr_dtor_shared sp id cb s :
  sp_ctrl sp = Some id -> st_heap s !! id = Some cb -> (1 < use_count cb)%nat ->
  shared_ptr_dtor rt sp s =
  (Ok tt, set_heap (<[id := {| cb_ptr := cb_ptr cb; cb_deleter := cb_deleter cb;
                               use_count := pred (use_count cb) |}]> (st_heap s)) s).
Proof.
  intros Hsp Hcb Hmany. unfold shared_ptr_dtor. rewrite Hsp, Hcb.
  rewrite decide_False by lia. reflexivity.
Qed.

Lemma shared_ptr_copy_live sp id cb (s : state W) :
  sp_ctrl sp = Some id -> st_heap s !! id = Some cb ->
  shared_ptr_copy sp s =
  (Ok sp, set_heap (<[id := {| cb_ptr := cb_ptr cb; cb_deleter := cb_deleter cb;
                               use_count := S (use_count cb) |}]> (st_heap s)) s).
Proof. intros Hsp Hcb. unfold shared_ptr_copy. rewrite Hsp, Hcb. reflexivity. Qed.

(** What the last owner's destructor does: the control block is gone, the
    free function has been invoked once on the owned pointer, and nothing
    else has crossed the boundary except the handling of a reported error. *)
Lemma last_owner_releases sp id cb s :
  sp_ctrl sp = Some id -> st_heap s !! id = Some cb -> use_count cb = 1%nat ->
  st_heap (shared_ptr_dtor rt sp s).2 = delete id (st_heap s) /\
  st_next (shared_ptr_dtor rt sp s).2 = st_next s /\
  exists tail,
    st_log (shared_ptr_dtor rt sp s).2 =
      st_log s ++ free_event (fn (cb_deleter cb)) (cb_ptr cb) :: tail /\
    forall f q, count_call (free_event f q) tail = 0%nat.
Proof.
  intros Hsp Hcb Hone.
  rewrite (shared_ptr_dtor_last sp id cb s Hsp Hcb Hone).
  unfold noexcept. rewrite Deleter_call_spec.
  case_decide; simpl.
  - split; [reflexivity|]. split; [reflexivity|].
    exists []. split; [reflexivity|]. reflexivity.
  - split; [reflexivity|]. split; [reflexivity|].
    eexists. split; [reflexivity|].
    intros f q. unfold count_call. rewrite !filter_cons, filter_nil.
    destruct f; repeat case_decide; try discriminate; reflexivity.
Qed.

(** C10. When the free function held by a deleter reports a nonzero code
    with message text [X], the deleter raises a failure with text [X]
    (after reading and releasing the message once); the destructor of the
    last owner, which runs that deleter, does not end normally: the failure
    leaves it, with the same text. *)
Theorem release_failure_is_raised (d : Deleter) (p : Z) (s : state W) (X : string) :
  code (free_entry rt (fn d) p (st_mem s, st_rt s)).1.1 <> 0 ->
  failure_text rt (free_entry rt (fn d) p) s = X ->
  (Deleter_call rt d p s).1 = Throw X /\
  st_log (Deleter_call rt d p s).2 =
    st_log s ++ [free_event (fn d) p;
                 Cstring_ptr (msg (free_entry rt (fn d) p (st_mem s, st_rt s)).1.1);
                 Cstring_free (msg (free_entry rt (fn d) p (st_mem s, st_rt s)).1.1)] /\
  forall sp id,
    sp_ctrl sp = Some id ->
    st_heap s !! id = Some {| cb_ptr := p; cb_deleter := d; use_count := 1 |} ->
    (shared_ptr_dtor rt sp s).1 = Terminate X.
Proof.
  intros Hc HX. rewrite Deleter_call_spec, decide_False by exact Hc.
  simpl. rewrite HX. split; [reflexivity|]. split; [reflexivity|].
  intros sp id Hsp Hcb.
  rewrite (shared_ptr_dtor_last sp id _ s Hsp Hcb eq_refl).
  unfold noexcept. rewrite Deleter_call_spec. simpl.
  rewrite decide_False by exact Hc. simpl.
  unfold failure_text in *. simpl. rewrite HX. reflexivity.
Qed.

(** *** Counting owners *)

Lemma bind_ok {A B} (c : M W A) (k : A -> M W B) s a s1 :
  c s = (Ok a, s1) -> bind c k s = k a s1.
Proof. intros H. unfold bind. rewrite H. reflexivity. Qed.

Lemma bind_throw {A B} (c : M W A) (k : A -> M W B) s m s1 :
  c s = (Throw m, s1) -> bind c k s = (Throw m, s1).
Proof. intros H. unfold bind. rewrite H. reflexivity. Qed.

Lemma bind_ret_state {A} (c : M W A) s :
  (bind c (fun _ => ret tt) s).2 = (c s).2.
Proof. unfold bind, ret. destruct (c s) as [[| | |] s1]; reflexivity. Qed.

Lemma operands_left_ok {A B} (c1 : M W A) (c2 : M W B) s a s1 b s2 :
  c1 s = (Ok a, s1) -> c2 s1 = (Ok b, s2) ->
  operands left_first c1 c2 s = (Ok (a, b), s2).
Proof.
  intros H1 H2. unfold operands.
  erewrite bind_ok by exact H1. erewrite bind_ok by exact H2. reflexivity.
Qed.

Lemma operands_right_ok {A B} (c1 : M W A) (c2 : M W B) s a s1 b s2 :
  c2 s = (Ok b, s1) -> c1 s1 = (Ok a, s2) ->
  operands right_first c1 c2 s = (Ok (a, b), s2).
Proof.
  intros H2 H1. unfold operands.
  erewrite bind_ok by exact H2. erewrite bind_ok by exact H1. reflexivity.
Qed.

Lemma run_ops_owners sp id ops : forall (s : state W) cb c n,
  sp_ctrl sp = Some id ->
  st_heap s !! id = Some cb -> use_count cb = S c ->
  owners (S c) ops = Some n ->
  exists added,
    st_log (run_ops rt sp ops s).2 = st_log s ++ added /\
    match n with
    | O =>
        st_heap (run_ops rt sp ops s).2 !! id = None /\
        count_call (free_event (fn (cb_deleter cb)) (cb_ptr cb)) added = 1%nat
    | S _ =>
        (run_ops rt sp ops s).1 = Ok tt /\
        st_heap (run_ops rt sp ops s).2 !! id =
          Some {| cb_ptr := cb_ptr cb; cb_deleter := cb_deleter cb; use_count := n |} /\
        added = []
    end.
Proof.
  induction ops as [|op rest IH]; intros s cb c n Hsp Hcb Hc Hn.
  - simpl in Hn. inversion Hn; subst n. exists []. rewrite app_nil_r.
    split; [reflexivity|]. simpl. split; [reflexivity|]. split; [|reflexivity].
    rewrite Hcb, <- Hc. destruct cb; reflexivity.
  - destruct op; simpl in Hn.
    + simpl run_ops.
      rewrite (bind_ok _ _ _ _ _ (shared_ptr_copy_live sp id cb s Hsp Hcb)).
      edestruct (IH (set_heap (<[id := {| cb_ptr := cb_ptr cb; cb_deleter := cb_deleter cb;
                                           use_count := S (use_count cb) |}]> (st_heap s)) s))
        as [added [Hlog Hres]];
        [exact Hsp | apply lookup_insert_eq | simpl; rewrite Hc; reflexivity | exact Hn |].
      simpl in Hlog, Hres. exists added. split; [exact Hlog|]. exact Hres.
    + simpl run_ops.
      destruct c as [|c'].
      * destruct rest; simpl in Hn; [|discriminate]. inversion Hn; subst n.
        destruct (last_owner_releases sp id cb s Hsp Hcb Hc) as [Hheap [_ [tail [Hlog Hcount]]]].
        exists (free_event (fn (cb_deleter cb)) (cb_ptr cb) :: tail).
        simpl run_ops. rewrite bind_ret_state, Hlog, Hheap. split; [reflexivity|].
        split; [apply lookup_delete_eq|].
        change (free_event (fn (cb_deleter cb)) (cb_ptr cb) :: tail)
          with ([free_event (fn (cb_deleter cb)) (cb_ptr cb)] ++ tail).
        rewrite count_call_app, Hcount. unfold count_call.
        rewrite filter_cons, decide_True by reflexivity. reflexivity.
      * rewrite (bind_ok _ _ _ _ _
                   (shared_ptr_dtor_shared sp id cb s Hsp Hcb ltac:(lia))).
        edestruct (IH (set_heap (<[id := {| cb_ptr := cb_ptr cb; cb_deleter := cb_deleter cb;
                                             use_count := pred (use_count cb) |}]> (st_heap s)) s))
          as [added [Hlog Hres]];
          [exact Hsp | apply lookup_insert_eq | simpl; rewrite Hc; reflexivity | exact Hn |].
        simpl in Hlog, Hres. exists added. split; [exact Hlog|]. exact Hres.
Qed.

(** C7. A handle made by [make_plaidml_shape], [make_plaidml_buffer] or
    [make_plaidml_view] from pointer [p] starts with one owner.  After any
    sequence of copies and drops that leaves [n] owners: while [n] is
    positive the control block records exactly [n] owners and the free
    function has not been invoked at all; when [n] is zero the control
    block is gone and the free function has been invoked on [p] exactly
    once. *)
Theorem shared_handle_released_once (f : free_fn) (p : Z) (ops : list owner_op)
    (n : nat) (s : state W) :
  owners 1 ops = Some n ->
  let sp := {| sp_get := p; sp_ctrl := Some (st_next s) |} in
  let s1 := (make_plaidml f p s).2 in
  make_plaidml f p s = (Ok sp, s1) /\
  st_heap s1 !! st_next s =
    Some {| cb_ptr := p; cb_deleter := {| fn := f |}; use_count := 1 |} /\
  st_log s1 = st_log s /\
  exists added,
    st_log (run_ops rt sp ops s1).2 = st_log s ++ added /\
    count_call (free_event f p) added = (if decide (n = O) then 1%nat else 0%nat) /\
    st_heap (run_ops rt sp ops s1).2 !! st_next s =
      (if decide (n = O) then None
       else Some {| cb_ptr := p; cb_deleter := {| fn := f |}; use_count := n |}).
Proof.
  intros Hn sp s1.
  assert (make_plaidml f p s = (Ok sp, s1)) as Hmake by (destruct f; reflexivity).
  assert (st_heap s1 !! st_next s =
          Some {| cb_ptr := p; cb_deleter := {| fn := f |}; use_count := 1 |}) as Hcb
    by (subst s1; destruct f; apply lookup_insert_eq).
  assert (st_log s1 = st_log s) as Hlog by (subst s1; destruct f; reflexivity).
  split; [exact Hmake|]. split; [exact Hcb|]. split; [exact Hlog|].
  destruct (run_ops_owners sp (st_next s) ops s1 _ O n eq_refl Hcb eq_refl Hn)
    as [added [Hadded Hres]].
  exists added. rewrite <- Hlog. split; [exact Hadded|].
  destruct n as [|n']; simpl in Hres.
  - destruct Hres as [Hgone Hcount]. rewrite decide_True by reflexivity.
    split; [exact Hcount | exact Hgone].
  - destruct Hres as [_ [Hlive ->]]. rewrite decide_False by discriminate.
    split; [reflexivity | exact Hlive].
Qed.

(** *** The log only grows *)

Lemma grows_ret {A} (a : A) : grows (@ret W A a).
Proof. intros s. exists []. simpl. rewrite app_nil_r. reflexivity. Qed.

Lemma grows_bind {A B} (c : M W A) (k : A -> M W B) :
  grows c -> (forall a, grows (k a)) -> grows (bind c k).
Proof.
  intros Hc Hk s. destruct (Hc s) as [r1 H1]. unfold bind.
  destruct (c s).1 as [a| | |]; simpl; eauto.
  destruct (Hk a (c s).2) as [r2 H2]. exists (r1 ++ r2).
  rewrite H2, H1, app_assoc. reflexivity.
Qed.

Lemma grows_noexcept {A} (c : M W A) : grows c -> grows (noexcept c).
Proof.
  intros Hc s. destruct (Hc s) as [r1 H1]. unfold noexcept.
  destruct (c s) as [[| | |] s1]; simpl in *; eauto.
Qed.

Lemma grows_scoped {A} (body : M W A) (dtor : M W unit) :
  grows body -> grows dtor -> grows (scoped body dtor).
Proof.
  intros Hb Hd s. destruct (Hb s) as [r1 H1]. unfold scoped.
  destruct (Hd (body s).2) as [r2 H2].
  destruct (body s).1; simpl; eauto;
    destruct (dtor (body s).2).1; simpl;
    exists (r1 ++ r2); rewrite H2, H1, app_assoc; reflexivity.
Qed.

Lemma grows_call {R} ev (f : foreign W R) : grows (call rt (invoke ev f)).
Proof.
  intros s. rewrite call_invoke. case_decide; simpl; eauto.
Qed.

Lemma grows_call_void ev (f : foreign W unit) : grows (call_void rt (invoke ev f)).
Proof.
  intros s. rewrite call_void_invoke. case_decide; simpl; eauto.
Qed.

Lemma grows_memcpy dst src n : grows (@memcpy W dst src n).
Proof.
  intros s. exists []. rewrite app_nil_r. unfold memcpy.
  destruct (st_mem s !! src); [|reflexivity].
  destruct (st_mem s !! dst); [|reflexivity].
  case_decide; reflexivity.
Qed.

Lemma grows_shared_ptr_ctor p d : grows (@shared_ptr_ctor W p d).
Proof. intros s. exists []. rewrite app_nil_r. reflexivity. Qed.

Lemma grows_shared_ptr_copy sp : grows (@shared_ptr_copy W sp).
Proof.
  intros s. exists []. rewrite app_nil_r. unfold shared_ptr_copy.
  destruct (sp_ctrl sp); [|reflexivity].
  destruct (st_heap s !! n); reflexivity.
Qed.

Lemma grows_shared_ptr_dtor sp : grows (shared_ptr_dtor rt sp).
Proof.
  intros s. unfold shared_ptr_dtor.
  destruct (sp_ctrl sp) as [id|]; [|exists []; rewrite app_nil_r; reflexivity].
  destruct (st_heap s !! id) as [cb|]; [|exists []; rewrite app_nil_r; reflexivity].
  case_decide; [|exists []; rewrite app_nil_r; reflexivity].
  destruct (grows_noexcept (Deleter_call rt (cb_deleter cb) (cb_ptr cb))
              (grows_call_void _ _) (set_heap (delete id (st_heap s)) s)) as [rest Hrest].
  exists rest. exact Hrest.
Qed.

Lemma grows_operands {A B} o (c1 : M W A) (c2 : M W B) :
  grows c1 -> grows c2 -> grows (operands o c1 c2).
Proof.
  intros H1 H2. destruct o; simpl.
  - apply grows_bind; [exact H1|]. intros a.
    apply grows_bind; [exact H2|]. intros b. apply grows_ret.
  - apply grows_bind; [exact H2|]. intros b.
    apply grows_bind; [exact H1|]. intros a. apply grows_ret.
Qed.

Lemma grows_copy_body_into o (view : View) dst :
  grows (scoped (args <- operands o (View_data rt view) (View_size rt view) ;;
                 memcpy dst args.1 args.2)
                (View_dtor rt view)).
Proof.
  apply grows_scoped; [|apply grows_shared_ptr_dtor].
  apply grows_bind; [apply grows_operands; apply grows_call|]. intros args.
  apply grows_memcpy.
Qed.

Lemma grows_copy_body_from o (view : View) src :
  grows (scoped (args <- operands o (View_data rt view) (View_size rt view) ;;
                 memcpy args.1 src args.2 ;;;
                 View_writeback rt view)
                (View_dtor rt view)).
Proof.
  apply grows_scoped; [|apply grows_shared_ptr_dtor].
  apply grows_bind; [apply grows_operands; apply grows_call|]. intros args.
  apply grows_bind; [apply grows_memcpy|]. intros _.
  apply grows_call_void.
Qed.

(** *** Mapping a buffer *)

Lemma wrap_view_spec v s :
  wrap_view rt v s =
  (Ok {| View_ptr_ := {| sp_get := v; sp_ctrl := Some (st_next s) |} |},
   {| st_mem := st_mem s; st_rt := st_rt s; st_log := st_log s;
      st_heap := <[st_next s := view_block v]> (st_heap s);
      st_next := S (st_next s) |}).
Proof.
  unfold wrap_view, make_plaidml_view.
  erewrite bind_ok by reflexivity.
  unfold View_ctor.
  erewrite bind_ok.
  2:{ erewrite bind_ok.
      2:{ eapply shared_ptr_copy_live; [reflexivity | apply lookup_insert_eq]. }
      reflexivity. }
  erewrite bind_ok.
  2:{ eapply shared_ptr_dtor_shared;
        [reflexivity | apply lookup_insert_eq | simpl; lia]. }
  unfold ret, set_heap, view_block. simpl.
  rewrite !insert_insert_eq. reflexivity.
Qed.

Lemma map_then_wrap ev (f : foreign W Z) s :
  (v <- call rt (invoke ev f) ;; wrap_view rt v) s =
  if decide (code (f (st_mem s, st_rt s)).1.1 = 0)
  then (Ok {| View_ptr_ := {| sp_get := (f (st_mem s, st_rt s)).1.2;
                              sp_ctrl := Some (st_next s) |} |},
        mapped ev f s)
  else (Throw (failure_text rt f s), after_failure rt ev f s).
Proof.
  unfold bind at 1. rewrite call_invoke. case_decide; simpl; [|reflexivity].
  rewrite wrap_view_spec. reflexivity.
Qed.

Lemma Buffer_mmap_current_spec b s :
  Buffer_mmap_current rt b s =
  if decide (code (plaidml_buffer_mmap_current rt (sp_get (Buffer_ptr_ b))
                     (st_mem s, st_rt s)).1.1 = 0)
  then (Ok {| View_ptr_ :=
                {| sp_get := (plaidml_buffer_mmap_current rt (sp_get (Buffer_ptr_ b))
                                (st_mem s, st_rt s)).1.2;
                   sp_ctrl := Some (st_next s) |} |},
        mapped (Cbuffer_mmap_current (sp_get (Buffer_ptr_ b)))
               (plaidml_buffer_mmap_current rt (sp_get (Buffer_ptr_ b))) s)
  else (Throw (failure_text rt (plaidml_buffer_mmap_current rt (sp_get (Buffer_ptr_ b))) s),
        after_failure rt (Cbuffer_mmap_current (sp_get (Buffer_ptr_ b)))
                      (plaidml_buffer_mmap_current rt (sp_get (Buffer_ptr_ b))) s).
Proof. apply map_then_wrap. Qed.

Lemma Buffer_mmap_discard_spec b s :
  Buffer_mmap_discard rt b s =
  if decide (code (plaidml_buffer_mmap_discard rt (sp_get (Buffer_ptr_ b))
                     (st_mem s, st_rt s)).1.1 = 0)
  then (Ok {| View_ptr_ :=
                {| sp_get := (plaidml_buffer_mmap_discard rt (sp_get (Buffer_ptr_ b))
                                (st_mem s, st_rt s)).1.2;
                   sp_ctrl := Some (st_next s) |} |},
        mapped (Cbuffer_mmap_discard (sp_get (Buffer_ptr_ b)))
               (plaidml_buffer_mmap_discard rt (sp_get (Buffer_ptr_ b))) s)
  else (Throw (failure_text rt (plaidml_buffer_mmap_discard rt (sp_get (Buffer_ptr_ b))) s),
        after_failure rt (Cbuffer_mmap_discard (sp_get (Buffer_ptr_ b)))
                      (plaidml_buffer_mmap_discard rt (sp_get (Buffer_ptr_ b))) s).
Proof. apply map_then_wrap. Qed.

Lemma Buffer_mmap_current_first b s :
  exists rest,
    st_log (Buffer_mmap_current rt b s).2 =
    st_log s ++ Cbuffer_mmap_current (sp_get (Buffer_ptr_ b)) :: rest.
Proof. rewrite Buffer_mmap_current_spec. case_decide; simpl; eauto. Qed.

Lemma Buffer_mmap_discard_first b s :
  exists rest,
    st_log (Buffer_mmap_discard rt b s).2 =
    st_log s ++ Cbuffer_mmap_discard (sp_get (Buffer_ptr_ b)) :: rest.
Proof. rewrite Buffer_mmap_discard_spec. case_decide; simpl; eauto. Qed.

Lemma Buffer_copy_into_first o b dst s :
  exists rest,
    st_log (Buffer_copy_into rt o b dst s).2 =
    st_log s ++ Cbuffer_mmap_current (sp_get (Buffer_ptr_ b)) :: rest.
Proof.
  unfold Buffer_copy_into. apply bind_log_first.
  - apply Buffer_mmap_current_first.
  - intros view. apply grows_copy_body_into.
Qed.

Lemma Buffer_copy_from_first o b src s :
  exists rest,
    st_log (Buffer_copy_from rt o b src s).2 =
    st_log s ++ Cbuffer_mmap_discard (sp_get (Buffer_ptr_ b)) :: rest.
Proof.
  unfold Buffer_copy_from. apply bind_log_first.
  - apply Buffer_mmap_discard_first.
  - intros view. apply grows_copy_body_from.
Qed.

Lemma Buffer_default_ptr s0 s1 b :
  Buffer_default rt s0 = (Ok b, s1) -> Buffer_ptr_ b = shared_ptr_empty.
Proof.
  unfold Buffer_default, bind, ret. intros H.
  destruct (TensorShape_default rt s0) as [[shape| | |] s']; simpl in H;
    inversion H; reflexivity.
Qed.

(** *** Where a thrown message comes from *)

Lemma bind_throws {A B} (Q : string -> Prop) (c : M W A) (k : A -> M W B) s m :
  (forall m', (c s).1 = Throw m' -> Q m') ->
  (forall a m', (k a (c s).2).1 = Throw m' -> Q m') ->
  (bind c k s).1 = Throw m -> Q m.
Proof.
  intros Hc Hk. unfold bind.
  destruct (c s).1 as [a|m'|m'|]; simpl; try discriminate.
  - apply Hk.
  - intros Heq. inversion Heq; subst. apply Hc. reflexivity.
Qed.

Lemma call_throws {R} ev (f : foreign W R) s m :
  (call rt (invoke ev f) s).1 = Throw m -> reported_by rt f m.
Proof.
  rewrite call_invoke. case_decide as Hc; simpl; [discriminate|].
  intros Heq. inversion Heq. exists s. split; [exact Hc | reflexivity].
Qed.

Lemma call_void_throws ev (f : foreign W unit) s m :
  (call_void rt (invoke ev f) s).1 = Throw m -> reported_by rt f m.
Proof. rewrite call_void_is_call. apply call_throws. Qed.

Lemma memcpy_never_throws dst src n (s : state W) m :
  (memcpy dst src n s).1 <> Throw m.
Proof.
  unfold memcpy.
  destruct (st_mem s !! src); [destruct (st_mem s !! dst); [case_decide|]|];
    discriminate.
Qed.

Lemma operands_throws {A B} (Q : string -> Prop) o (c1 : M W A) (c2 : M W B) s m :
  (forall s' m', (c1 s').1 = Throw m' -> Q m') ->
  (forall s' m', (c2 s').1 = Throw m' -> Q m') ->
  (operands o c1 c2 s).1 = Throw m -> Q m.
Proof.
  intros H1 H2. destruct o; simpl.
  - apply (bind_throws Q); [apply H1|]. intros a m'.
    apply (bind_throws Q); [apply H2|]. intros b0 m''. discriminate.
  - apply (bind_throws Q); [apply H2|]. intros b0 m'.
    apply (bind_throws Q); [apply H1|]. intros a m''. discriminate.
Qed.

Lemma scoped_throws {A} (body : M W A) (dtor : M W unit) s m :
  (scoped body dtor s).1 = Throw m -> (body s).1 = Throw m.
Proof.
  unfold scoped. destruct (body s).1 as [a|m'|m'|]; simpl; try discriminate.
  - destruct (dtor (body s).2).1; simpl; discriminate.
  - destruct (dtor (body s).2).1; simpl; try discriminate.
    intros Heq. exact Heq.
Qed.

Lemma view_args_throw o (view : View) s m :
  (operands o (View_data rt view) (View_size rt view) s).1 = Throw m ->
  reported_by rt (plaidml_view_data rt (sp_get (View_ptr_ view))) m \/
  reported_by rt (plaidml_view_size rt (sp_get (View_ptr_ view))) m.
Proof.
  apply (operands_throws
           (fun m => reported_by rt (plaidml_view_data rt (sp_get (View_ptr_ view))) m \/
                     reported_by rt (plaidml_view_size rt (sp_get (View_ptr_ view))) m)).
  - intros s' m' H. left. exact (call_throws _ _ _ _ H).
  - intros s' m' H. right. exact (call_throws _ _ _ _ H).
Qed.

Lemma Buffer_copy_into_throws o b dst s m :
  (Buffer_copy_into rt o b dst s).1 = Throw m ->
  let p := sp_get (Buffer_ptr_ b) in
  let v := (plaidml_buffer_mmap_current rt p (st_mem s, st_rt s)).1.2 in
  reported_by rt (plaidml_buffer_mmap_current rt p) m \/
  reported_by rt (plaidml_view_data rt v) m \/
  reported_by rt (plaidml_view_size rt v) m.
Proof.
  intros Hthrow p v. unfold Buffer_copy_into in Hthrow.
  pose proof (Buffer_mmap_current_spec b s) as Hmap.
  destruct (decide (code (plaidml_buffer_mmap_current rt (sp_get (Buffer_ptr_ b))
                            (st_mem s, st_rt s)).1.1 = 0)) as [Hc|Hc].
  - erewrite bind_ok in Hthrow by exact Hmap.
    apply scoped_throws in Hthrow. right.
    revert Hthrow.
    apply (bind_throws (fun m => reported_by rt (plaidml_view_data rt v) m \/
                                 reported_by rt (plaidml_view_size rt v) m)).
    + intros m'. apply view_args_throw.
    + intros args m' Hm. exfalso. exact (memcpy_never_throws _ _ _ _ _ Hm).
  - erewrite bind_throw in Hthrow by exact Hmap.
    left. inversion Hthrow. exists s. split; [exact Hc | reflexivity].
Qed.

Lemma Buffer_copy_from_throws o b src s m :
  (Buffer_copy_from rt o b src s).1 = Throw m ->
  let p := sp_get (Buffer_ptr_ b) in
  let v := (plaidml_buffer_mmap_discard rt p (st_mem s, st_rt s)).1.2 in
  reported_by rt (plaidml_buffer_mmap_discard rt p) m \/
  reported_by rt (plaidml_view_data rt v) m \/
  reported_by rt (plaidml_view_size rt v) m \/
  reported_by rt (plaidml_view_writeback rt v) m.
Proof.
  intros Hthrow p v. unfold Buffer_copy_from in Hthrow.
  pose proof (Buffer_mmap_discard_spec b s) as Hmap.
  destruct (decide (code (plaidml_buffer_mmap_discard rt (sp_get (Buffer_ptr_ b))
                            (st_mem s, st_rt s)).1.1 = 0)) as [Hc|Hc].
  - erewrite bind_ok in Hthrow by exact Hmap.
    apply scoped_throws in Hthrow. right.
    revert Hthrow.
    apply (bind_throws (fun m => reported_by rt (plaidml_view_data rt v) m \/
                                 reported_by rt (plaidml_view_size rt v) m \/
                                 reported_by rt (plaidml_view_writeback rt v) m)).
    + intros m' Hm. destruct (view_args_throw _ _ _ _ Hm) as [Hd|Hs]; auto.
    + intros args m'.
      apply (bind_throws (fun m => reported_by rt (plaidml_view_data rt v) m \/
                                   reported_by rt (plaidml_view_size rt v) m \/
                                   reported_by rt (plaidml_view_writeback rt v) m)).
      * intros m'' Hm. exfalso. exact (memcpy_never_throws _ _ _ _ _ Hm).
      * intros _ m'' Hm. right. right. exact (call_void_throws _ _ _ _ Hm).
  - erewrite bind_throw in Hthrow by exact Hmap.
    left. inversion Hthrow. exists s. split; [exact Hc | reflexivity].
Qed.

(** C9. A default-constructed [Buffer] stores [nullptr] and owns nothing.
    Each of its operations goes straight to the runtime: the first
    crossing it makes is the map call with [nullptr] as the buffer.  The
    map operations succeed exactly when the runtime reports code zero, and
    when the runtime reports a failure, the failure raised by the map and
    copy operations carries the runtime's text.  Whatever the order in
    which the arguments of [memcpy] are evaluated, every failure the copy
    operations raise, also after a successful map, is a message the runtime
    reported: through the map call on [nullptr], or through [data()],
    [size()] or [writeback()] on the view pointer that map call returned. *)
Theorem default_buffer_passes_null (s0 s1 : state W) (b : Buffer) :
  Buffer_default rt s0 = (Ok b, s1) ->
  Buffer_ptr_ b = shared_ptr_empty /\
  Buffer_as_ptr b = nullptr /\
  forall (o : eval_order) (s : state W) (dst src : Z),
    (exists rest, st_log (Buffer_mmap_current rt b s).2 =
                  st_log s ++ Cbuffer_mmap_current nullptr :: rest) /\
    (exists rest, st_log (Buffer_mmap_discard rt b s).2 =
                  st_log s ++ Cbuffer_mmap_discard nullptr :: rest) /\
    (exists rest, st_log (Buffer_copy_into rt o b dst s).2 =
                  st_log s ++ Cbuffer_mmap_current nullptr :: rest) /\
    (exists rest, st_log (Buffer_copy_from rt o b src s).2 =
                  st_log s ++ Cbuffer_mmap_discard nullptr :: rest) /\
    (if decide (code (plaidml_buffer_mmap_current rt nullptr (st_mem s, st_rt s)).1.1 = 0)
     then exists view, (Buffer_mmap_current rt b s).1 = Ok view /\
            sp_get (View_ptr_ view) =
              (plaidml_buffer_mmap_current rt nullptr (st_mem s, st_rt s)).1.2
     else (Buffer_mmap_current rt b s).1 =
            Throw (failure_text rt (plaidml_buffer_mmap_current rt nullptr) s) /\
          (Buffer_copy_into rt o b dst s).1 =
            Throw (failure_text rt (plaidml_buffer_mmap_current rt nullptr) s)) /\
    (if decide (code (plaidml_buffer_mmap_discard rt nullptr (st_mem s, st_rt s)).1.1 = 0)
     then exists view, (Buffer_mmap_discard rt b s).1 = Ok view /\
            sp_get (View_ptr_ view) =
              (plaidml_buffer_mmap_discard rt nullptr (st_mem s, st_rt s)).1.2
     else (Buffer_mmap_discard rt b s).1 =
            Throw (failure_text rt (plaidml_buffer_mmap_discard rt nullptr) s) /\
          (Buffer_copy_from rt o b src s).1 =
            Throw (failure_text rt (plaidml_buffer_mmap_discard rt nullptr) s)) /\
    (forall m, (Buffer_mmap_current rt b s).1 = Throw m ->
       reported_by rt (plaidml_buffer_mmap_current rt nullptr) m) /\
    (forall m, (Buffer_mmap_discard rt b s).1 = Throw m ->
       reported_by rt (plaidml_buffer_mmap_discard rt nullptr) m) /\
    (forall m, (Buffer_copy_into rt o b dst s).1 = Throw m ->
       let v := (plaidml_buffer_mmap_current rt nullptr (st_mem s, st_rt s)).1.2 in
       reported_by rt (plaidml_buffer_mmap_current rt nullptr) m \/
       reported_by rt (plaidml_view_data rt v) m \/
       reported_by rt (plaidml_view_size rt v) m) /\
    (forall m, (Buffer_copy_from rt o b src s).1 = Throw m ->
       let v := (plaidml_buffer_mmap_discard rt nullptr (st_mem s, st_rt s)).1.2 in
       reported_by rt (plaidml_buffer_mmap_discard rt nullptr) m \/
       reported_by rt (plaidml_view_data rt v) m \/
       reported_by rt (plaidml_view_size rt v) m \/
       reported_by rt (plaidml_view_writeback rt v) m).
Proof.
  intros Hdef. pose proof (Buffer_default_ptr _ _ _ Hdef) as Hptr.
  assert (sp_get (Buffer_ptr_ b) = nullptr) as Hnull by (rewrite Hptr; reflexivity).
  split; [exact Hptr|]. split; [exact Hnull|].
  intros o s dst src.
  pose proof (Buffer_mmap_current_first b s) as H1.
  pose proof (Buffer_mmap_discard_first b s) as H2.
  pose proof (Buffer_copy_into_first o b dst s) as H3.
  pose proof (Buffer_copy_from_first o b src s) as H4.
  pose proof (Buffer_mmap_current_spec b s) as H5.
  pose proof (Buffer_mmap_discard_spec b s) as H6.
  pose proof (fun m => Buffer_copy_into_throws o b dst s m) as H7.
  pose proof (fun m => Buffer_copy_from_throws o b src s m) as H8.
  rewrite Hnull in H1, H2, H3, H4, H5, H6, H7, H8.
  repeat (split; [assumption|]).
  split; [|split; [|split; [|split; [|split; [exact H7 | exact H8]]]]].
  - destruct (decide (code (plaidml_buffer_mmap_current rt nullptr
                              (st_mem s, st_rt s)).1.1 = 0)) as [Hc|Hc].
    + eexists. rewrite H5. split; reflexivity.
    + split; [rewrite H5; reflexivity|].
      unfold Buffer_copy_into. erewrite bind_throw by exact H5. reflexivity.
  - destruct (decide (code (plaidml_buffer_mmap_discard rt nullptr
                              (st_mem s, st_rt s)).1.1 = 0)) as [Hc|Hc].
    + eexists. rewrite H6. split; reflexivity.
    + split; [rewrite H6; reflexivity|].
      unfold Buffer_copy_from. erewrite bind_throw by exact H6. reflexivity.
  - intros m Hm. rewrite H5 in Hm.
    destruct (decide (code (plaidml_buffer_mmap_current rt nullptr
                              (st_mem s, st_rt s)).1.1 = 0)) as [Hc|Hc];
      [discriminate Hm|].
    inversion Hm. exists s. split; [exact Hc | reflexivity].
  - intros m Hm. rewrite H6 in Hm.
    destruct (decide (code (plaidml_buffer_mmap_discard rt nullptr
                              (st_mem s, st_rt s)).1.1 = 0)) as [Hc|Hc];
      [discriminate Hm|].
    inversion Hm. exists s. split; [exact Hc | reflexivity].
Qed.

(** *** A view and the buffer it maps *)

Lemma mapped_heap_other ev (f : foreign W Z) (s : state W) (id : nat) :
  (id < st_next s)%nat -> st_heap (mapped ev f s) !! id = st_heap s !! id.
Proof. intros Hid. simpl. apply lookup_insert_ne. lia. Qed.

(** C1 (amended). A [View] made by either map operation owns exactly one
    thing, the control block of its own view handle; the map operation
    leaves the control block of the buffer handle as it was, so the view is
    not an owner of it.  Hence, when the buffer handle has a single owner
    and that owner is destroyed after the view was made,
    [plaidml_buffer_free] is invoked on the buffer's pointer while the
    view's control block is still live. *)
Theorem view_owns_only_its_handle (b : Buffer) (s s1 : state W) (idb : nat)
    (cb : ctrl) (view : View) :
  sp_ctrl (Buffer_ptr_ b) = Some idb ->
  st_heap s !! idb = Some cb ->
  (idb < st_next s)%nat ->
  Buffer_mmap_current rt b s = (Ok view, s1) \/
  Buffer_mmap_discard rt b s = (Ok view, s1) ->
  st_heap s1 !! idb = Some cb /\
  sp_ctrl (View_ptr_ view) = Some (st_next s) /\
  st_next s <> idb /\
  st_heap s1 !! st_next s = Some (view_block (sp_get (View_ptr_ view))) /\
  (use_count cb = 1%nat -> cb_deleter cb = {| fn := buffer_free |} ->
   (exists rest,
      st_log (shared_ptr_dtor rt (Buffer_ptr_ b) s1).2 =
      st_log s1 ++ Cbuffer_free (cb_ptr cb) :: rest) /\
   st_heap (shared_ptr_dtor rt (Buffer_ptr_ b) s1).2 !! idb = None /\
   st_heap (shared_ptr_dtor rt (Buffer_ptr_ b) s1).2 !! st_next s =
     Some (view_block (sp_get (View_ptr_ view)))).
Proof.
  intros Hsp Hcb Hid Hmap.
  assert (st_heap s1 !! idb = Some cb /\
          sp_ctrl (View_ptr_ view) = Some (st_next s) /\
          st_heap s1 !! st_next s = Some (view_block (sp_get (View_ptr_ view))))
    as [Hcb1 [Hv Hvb]].
  { destruct Hmap as [Hmap|Hmap];
      [rewrite Buffer_mmap_current_spec in Hmap
      |rewrite Buffer_mmap_discard_spec in Hmap];
      (case_decide; [|discriminate]); inversion Hmap; subst view s1; clear Hmap;
      (split; [rewrite mapped_heap_other by exact Hid; exact Hcb|]);
      (split; [reflexivity|]); apply lookup_insert_eq. }
  split; [exact Hcb1|]. split; [exact Hv|]. split; [lia|]. split; [exact Hvb|].
  intros Hone Hdel.
  destruct (last_owner_releases (Buffer_ptr_ b) idb cb s1 Hsp Hcb1 Hone)
    as [Hheap [_ [tail [Hlog _]]]].
  rewrite Hheap, Hlog, Hdel. simpl.
  split; [eauto|]. split; [apply lookup_delete_eq|].
  rewrite lookup_delete_ne by lia. exact Hvb.
Qed.

(** *** Allocation and equality, over any runtime *)

Lemma Buffer_alloc_request (device : string) (shape : TensorShape) (s : state W) :
  code (plaidml_shape_get_nbytes rt (sp_get (TensorShape_ptr_ shape))
          (st_mem s, st_rt s)).1.1 = 0 ->
  exists rest,
    st_log (Buffer_alloc rt device shape s).2 =
    st_log s ++
      [Cshape_get_nbytes (sp_get (TensorShape_ptr_ shape));
       Cbuffer_alloc (c_str device)
         (plaidml_shape_get_nbytes rt (sp_get (TensorShape_ptr_ shape))
            (st_mem s, st_rt s)).1.2] ++ rest.
Proof.
  intros Hc. unfold Buffer_alloc.
  erewrite bind_ok.
  2:{ unfold TensorShape_nbytes. rewrite call_invoke, decide_True by exact Hc. reflexivity. }
  set (n := (plaidml_shape_get_nbytes rt _ _).1.2).
  set (s1 := after_invoke _ _ s).
  destruct (bind_log_first
              (call rt (invoke (Cbuffer_alloc (c_str device) n)
                          (plaidml_buffer_alloc rt (c_str device) n)))
              (fun p => sp <- make_plaidml_buffer p ;;
                        shape' <- TensorShape_copy shape ;;
                        ret {| Buffer_ptr_ := sp; Buffer_shape_ := shape' |})
              s1 (Cbuffer_alloc (c_str device) n)) as [rest Hrest].
  - apply call_log.
  - intros p. apply grows_bind; [apply grows_shared_ptr_ctor|]. intros sp.
    apply grows_bind; [|intros; apply grows_ret].
    unfold TensorShape_copy.
    apply grows_bind; [apply grows_shared_ptr_copy | intros; apply grows_ret].
  - exists rest. rewrite Hrest. subst s1. simpl. rewrite <- app_assoc. reflexivity.
Qed.


(** *** Successful steps, with the state they leave *)

Lemma call_invoke_ok {R} ev (f : foreign W R) s e r m' w' :
  f (st_mem s, st_rt s) = ((e, r), (m', w')) -> code e = 0 ->
  call rt (invoke ev f) s =
  (Ok r, {| st_mem := m'; st_rt := w'; st_log := st_log s ++ [ev];
            st_heap := st_heap s; st_next := st_next s |}).
Proof.
  intros Hf Hc. rewrite call_invoke, Hf. simpl.
  rewrite decide_True by exact Hc. unfold after_invoke. rewrite Hf. reflexivity.
Qed.

Lemma call_void_invoke_ok ev (f : foreign W unit) s e m' w' :
  f (st_mem s, st_rt s) = ((e, tt), (m', w')) -> code e = 0 ->
  call_void rt (invoke ev f) s =
  (Ok tt, {| st_mem := m'; st_rt := w'; st_log := st_log s ++ [ev];
             st_heap := st_heap s; st_next := st_next s |}).
Proof.
  intros Hf Hc. rewrite call_void_invoke, Hf. simpl.
  rewrite decide_True by exact Hc. unfold after_invoke. rewrite Hf. reflexivity.
Qed.

Lemma map_then_wrap_ok ev (f : foreign W Z) s e v m' w' :
  f (st_mem s, st_rt s) = ((e, v), (m', w')) -> code e = 0 ->
  (x <- call rt (invoke ev f) ;; wrap_view rt x) s =
  (Ok {| View_ptr_ := {| sp_get := v; sp_ctrl := Some (st_next s) |} |},
   {| st_mem := m'; st_rt := w'; st_log := st_log s ++ [ev];
      st_heap := <[st_next s := view_block v]> (st_heap s);
      st_next := S (st_next s) |}).
Proof.
  intros Hf Hc. rewrite map_then_wrap, Hf. simpl.
  rewrite decide_True by exact Hc. unfold mapped. rewrite Hf. reflexivity.
Qed.

Lemma shared_ptr_dtor_last_ok sp id cb s e m' w' :
  sp_ctrl sp = Some id -> st_heap s !! id = Some cb -> use_count cb = 1%nat ->
  free_entry rt (fn (cb_deleter cb)) (cb_ptr cb) (st_mem s, st_rt s) = ((e, tt), (m', w')) ->
  code e = 0 ->
  shared_ptr_dtor rt sp s =
  (Ok tt, {| st_mem := m'; st_rt := w';
             st_log := st_log s ++ [free_event (fn (cb_deleter cb)) (cb_ptr cb)];
             st_heap := delete id (st_heap s); st_next := st_next s |}).
Proof.
  intros Hsp Hcb Hone Hf Hc.
  rewrite (shared_ptr_dtor_last sp id cb s Hsp Hcb Hone).
  unfold noexcept, Deleter_call, free_call.
  erewrite call_void_invoke_ok; [reflexivity|exact Hf|exact Hc].
Qed.

Lemma scoped_ok {A} (body : M W A) (dtor : M W unit) s a s1 s2 :
  body s = (Ok a, s1) -> dtor s1 = (Ok tt, s2) -> scoped body dtor s = (Ok a, s2).
Proof. intros Hb Hd. unfold scoped. rewrite Hb. simpl. rewrite Hd. reflexivity. Qed.

Lemma memcpy_ok dst src n (s : state W) from to :
  st_mem s !! src = Some from -> st_mem s !! dst = Some to ->
  src <> dst -> 0 <= n <= Z.of_nat (length from) -> n <= Z.of_nat (length to) ->
  memcpy dst src n s =
  (Ok tt, {| st_mem := <[dst := take (Z.to_nat n) from ++ drop (Z.to_nat n) to]> (st_mem s);
             st_rt := st_rt s; st_log := st_log s;
             st_heap := st_heap s; st_next := st_next s |}).
Proof.
  intros Hs Hd Hne Hn1 Hn2. unfold memcpy. rewrite Hs, Hd.
  rewrite decide_True by auto. reflexivity.
Qed.

End WrapperFacts.

(** ** The wrapper over the reference runtime *)

Section ReferenceFacts.

Variable repr : shape_rec -> string.
Variable fill : Byte.byte.

Abbreviation rt := (reference_runtime repr fill).

Lemma fresh_unmapped (m : gmap Z (list Byte.byte)) : m !! fresh_addr m = None.
Proof.
  apply not_elem_of_dom. unfold fresh_addr.
  pose proof (is_fresh ({[nullptr]} ∪ dom m)) as Hf. set_solver.
Qed.

Lemma mapped_key_fresh (m : gmap Z (list Byte.byte)) (k : Z) x :
  m !! k = Some x -> k <> fresh_addr m.
Proof. intros Hk ->. rewrite fresh_unmapped in Hk. discriminate. Qed.

Lemma view_args_ref (o : eval_order) (view : View) (s : state rt_state)
    (r : view_rec) (bytes : list Byte.byte) :
  rs_views (st_rt s) !! sp_get (View_ptr_ view) = Some r ->
  st_mem s !! vw_data r = Some bytes ->
  operands o (View_data rt view) (View_size rt view) s =
  (Ok (vw_data r, Z.of_nat (length bytes)),
   {| st_mem := st_mem s; st_rt := st_rt s;
      st_log := st_log s ++ arg_crossings o (sp_get (View_ptr_ view));
      st_heap := st_heap s; st_next := st_next s |}).
Proof.
  intros Hv Hm. destruct o.
  - erewrite operands_left_ok.
    2:{ unfold View_data. eapply call_invoke_ok;
          [simpl; unfold ref_view_data; simpl; rewrite Hv; reflexivity | reflexivity]. }
    2:{ unfold View_size. eapply call_invoke_ok;
          [simpl; unfold ref_view_size; simpl; rewrite Hv; simpl; rewrite Hm; reflexivity
          |reflexivity]. }
    simpl. rewrite <- app_assoc. reflexivity.
  - erewrite operands_right_ok.
    2:{ unfold View_size. eapply call_invoke_ok;
          [simpl; unfold ref_view_size; simpl; rewrite Hv; simpl; rewrite Hm; reflexivity
          |reflexivity]. }
    2:{ unfold View_data. eapply call_invoke_ok;
          [simpl; unfold ref_view_data; simpl; rewrite Hv; reflexivity | reflexivity]. }
    simpl. rewrite <- app_assoc. reflexivity.
Qed.

Lemma Buffer_copy_from_ref (o : eval_order) (b : Buffer) (src : Z) (s : state rt_state)
    (content P : list Byte.byte) :
  rs_buffers (st_rt s) !! sp_get (Buffer_ptr_ b) = Some content ->
  st_mem s !! src = Some P ->
  length P = length content ->
  exists s',
    Buffer_copy_from rt o b src s = (Ok tt, s') /\
    st_mem s' = st_mem s /\
    rs_buffers (st_rt s') = <[sp_get (Buffer_ptr_ b) := P]> (rs_buffers (st_rt s)) /\
    rs_next (st_rt s') = rs_next (st_rt s) + 1 /\
    st_log s' =
      st_log s ++ Cbuffer_mmap_discard (sp_get (Buffer_ptr_ b)) ::
        arg_crossings o (rs_next (st_rt s)) ++
        [Cview_writeback (rs_next (st_rt s)); Cview_free (rs_next (st_rt s))].
Proof.
  intros Hbuf Hsrc Hlen.
  pose proof (mapped_key_fresh _ _ _ Hsrc) as Hfresh.
  unfold Buffer_copy_from.
  erewrite bind_ok.
  2:{ eapply (map_then_wrap_ok rt);
        [simpl; unfold ref_buffer_mmap_discard; simpl; rewrite Hbuf; reflexivity
        |reflexivity]. }
  simpl. eexists. split.
  - eapply scoped_ok.
    + erewrite bind_ok.
      2:{ eapply view_args_ref; simpl; [apply lookup_insert_eq|].
          simpl. apply lookup_insert_eq. }
      simpl. erewrite bind_ok.
      2:{ eapply memcpy_ok; simpl.
          - rewrite lookup_insert_ne by (intros Heq; apply Hfresh; symmetry; exact Heq).
            exact Hsrc.
          - apply lookup_insert_eq.
          - exact Hfresh.
          - rewrite length_replicate. lia.
          - rewrite length_replicate. lia. }
      unfold View_writeback. eapply call_void_invoke_ok;
        [simpl; unfold ref_view_writeback; simpl;
         rewrite lookup_insert_eq; simpl; rewrite Hbuf, lookup_insert_eq; reflexivity
        |reflexivity].
    + unfold View_dtor. simpl.
      eapply shared_ptr_dtor_last_ok;
        [reflexivity | simpl; apply lookup_insert_eq | reflexivity
        |simpl; unfold ref_view_free; simpl; rewrite lookup_insert_eq; reflexivity
        |reflexivity].
  - simpl. split.
    + rewrite insert_insert_eq, delete_insert_eq. apply delete_id, fresh_unmapped.
    + split; [|split; [reflexivity | rewrite <- !app_assoc; reflexivity]].
      rewrite length_replicate, Nat2Z.id, <- Hlen.
      rewrite take_ge by lia.
      rewrite drop_ge by (rewrite length_replicate; lia).
      rewrite app_nil_r. reflexivity.
Qed.

Lemma Buffer_copy_into_ref (o : eval_order) (b : Buffer) (dst : Z) (s : state rt_state)
    (content Q : list Byte.byte) :
  rs_buffers (st_rt s) !! sp_get (Buffer_ptr_ b) = Some content ->
  st_mem s !! dst = Some Q ->
  (length content <= length Q)%nat ->
  exists s',
    Buffer_copy_into rt o b dst s = (Ok tt, s') /\
    st_mem s' = <[dst := content ++ drop (length content) Q]> (st_mem s) /\
    rs_buffers (st_rt s') = rs_buffers (st_rt s) /\
    st_log s' =
      st_log s ++ Cbuffer_mmap_current (sp_get (Buffer_ptr_ b)) ::
        arg_crossings o (rs_next (st_rt s)) ++ [Cview_free (rs_next (st_rt s))].
Proof.
  intros Hbuf Hdst Hlen.
  pose proof (mapped_key_fresh _ _ _ Hdst) as Hfresh.
  unfold Buffer_copy_into.
  erewrite bind_ok.
  2:{ eapply (map_then_wrap_ok rt);
        [simpl; unfold ref_buffer_mmap_current; simpl; rewrite Hbuf; reflexivity
        |reflexivity]. }
  simpl. eexists. split.
  - eapply scoped_ok.
    + erewrite bind_ok.
      2:{ eapply view_args_ref; simpl; [apply lookup_insert_eq|].
          simpl. apply lookup_insert_eq. }
      simpl. eapply memcpy_ok; simpl.
      * apply lookup_insert_eq.
      * rewrite lookup_insert_ne by (intros Heq; apply Hfresh; symmetry; exact Heq).
        exact Hdst.
      * intros Heq. apply Hfresh. symmetry. exact Heq.
      * lia.
      * lia.
    + unfold View_dtor. simpl.
      eapply shared_ptr_dtor_last_ok;
        [reflexivity | simpl; apply lookup_insert_eq | reflexivity
        |simpl; unfold ref_view_free; simpl; rewrite lookup_insert_eq; reflexivity
        |reflexivity].
  - simpl. split; [|split; [reflexivity | rewrite <- !app_assoc; reflexivity]].
    rewrite Nat2Z.id, take_ge by lia.
    rewrite delete_insert_ne by (intros Heq; apply Hfresh; symmetry; exact Heq).
    rewrite delete_insert_eq, delete_id by apply fresh_unmapped. reflexivity.
Qed.

(** C3. On the reference runtime, for a buffer whose handle is live, a
    payload [P] of the buffer's byte size at [src] and a destination array
    [Q] of the same size at [dst]: [copy_from(src)] followed by
    [copy_into(dst)] ends normally and leaves [P] in the destination, in
    whichever order each of the two [memcpy] calls evaluates [view.data()]
    and [view.size()].  The first operation makes the crossings map-discard,
    then [data()] and [size()] in the order of evaluation, then write-back,
    then free: the commit precedes the release of the view.  The second
    makes map-current, [data()] and [size()] in the order of evaluation,
    then free. *)
Theorem copy_round_trip (o1 o2 : eval_order) (b : Buffer) (src dst : Z)
    (s : state rt_state) (content P Q : list Byte.byte) :
  rs_buffers (st_rt s) !! sp_get (Buffer_ptr_ b) = Some content ->
  st_mem s !! src = Some P ->
  st_mem s !! dst = Some Q ->
  src <> dst ->
  length P = length content ->
  length Q = length P ->
  ((Buffer_copy_from rt o1 b src ;;; Buffer_copy_into rt o2 b dst) s).1 = Ok tt /\
  st_mem ((Buffer_copy_from rt o1 b src ;;; Buffer_copy_into rt o2 b dst) s).2 !! dst
    = Some P /\
  st_mem ((Buffer_copy_from rt o1 b src ;;; Buffer_copy_into rt o2 b dst) s).2 !! src
    = Some P /\
  rs_buffers (st_rt ((Buffer_copy_from rt o1 b src ;;; Buffer_copy_into rt o2 b dst) s).2)
    !! sp_get (Buffer_ptr_ b) = Some P /\
  st_log ((Buffer_copy_from rt o1 b src ;;; Buffer_copy_into rt o2 b dst) s).2 =
    st_log s ++
      (Cbuffer_mmap_discard (sp_get (Buffer_ptr_ b)) ::
         arg_crossings o1 (rs_next (st_rt s)) ++
         [Cview_writeback (rs_next (st_rt s)); Cview_free (rs_next (st_rt s))]) ++
      (Cbuffer_mmap_current (sp_get (Buffer_ptr_ b)) ::
         arg_crossings o2 (rs_next (st_rt s) + 1) ++
         [Cview_free (rs_next (st_rt s) + 1)]).
Proof.
  intros Hbuf Hsrc Hdst Hne HP HQ.
  destruct (Buffer_copy_from_ref o1 b src s content P Hbuf Hsrc HP)
    as [s1 [Hfrom [Hmem1 [Hbuf1 [Hnext1 Hlog1]]]]].
  assert (rs_buffers (st_rt s1) !! sp_get (Buffer_ptr_ b) = Some P) as Hbuf1'
    by (rewrite Hbuf1; apply lookup_insert_eq).
  assert (st_mem s1 !! dst = Some Q) as Hdst1 by (rewrite Hmem1; exact Hdst).
  destruct (Buffer_copy_into_ref o2 b dst s1 P Q Hbuf1' Hdst1 ltac:(lia))
    as [s2 [Hinto [Hmem2 [Hbuf2 Hlog2]]]].
  erewrite bind_ok by exact Hfrom. rewrite Hinto. simpl.
  split; [reflexivity|].
  rewrite Hmem2, Hmem1, Hbuf2, Hlog2, Hlog1.
  split.
  { rewrite lookup_insert_eq, <- HQ, drop_all, app_nil_r. reflexivity. }
  split; [rewrite lookup_insert_ne by (intros Heq; apply Hne; symmetry; exact Heq); exact Hsrc|].
  split; [exact Hbuf1'|].
  rewrite <- app_assoc, Hnext1. reflexivity.
Qed.






Lemma shape_nbytes_nonneg r : 0 <= shape_nbytes r.
Proof. unfold shape_nbytes, to_uint64. apply Z.mod_pos_bound. lia. Qed.

Lemma Buffer_alloc_ref (device : string) (shape : TensorShape) (s : state rt_state)
    (r : shape_rec) (id : nat) (cb : ctrl) :
  rs_shapes (st_rt s) !! sp_get (TensorShape_ptr_ shape) = Some r ->
  sp_ctrl (TensorShape_ptr_ shape) = Some id ->
  st_heap s !! id = Some cb ->
  (id < st_next s)%nat ->
  exists b s',
    Buffer_alloc rt device shape s = (Ok b, s') /\
    rs_buffers (st_rt s') !! Buffer_as_ptr b =
      Some (replicate (Z.to_nat (shape_nbytes r)) fill).
Proof.
  intros Hr Hsp Hcb Hid. unfold Buffer_alloc. eexists _, _.
  erewrite bind_ok.
  2:{ unfold TensorShape_nbytes. eapply call_invoke_ok;
        [simpl; unfold ref_shape_get_nbytes; simpl; rewrite Hr; reflexivity | reflexivity]. }
  erewrite bind_ok.
  2:{ eapply call_invoke_ok;
        [simpl; unfold ref_buffer_alloc; simpl;
         rewrite decide_True by apply shape_nbytes_nonneg; reflexivity
        |reflexivity]. }
  erewrite bind_ok by reflexivity.
  erewrite bind_ok.
  2:{ unfold TensorShape_copy. erewrite bind_ok; [reflexivity|].
      eapply shared_ptr_copy_live; [exact Hsp|].
      simpl. rewrite lookup_insert_ne by lia. exact Hcb. }
  split; [reflexivity|]. simpl. apply lookup_insert_eq.
Qed.

(** C8. Over any runtime, when [shape.nbytes()] returns [n] the allocating
    constructor's next crossing is [plaidml_buffer_alloc] with the device
    and exactly [n] as the byte size.  On the reference runtime, for a live
    descriptor [S], the constructor returns a buffer whose device memory
    has exactly [S]'s byte size. *)
Theorem buffer_alloc_requests_shape_nbytes :
  (forall W (rt0 : Runtime W) (device : string) (shape : TensorShape) (s : state W),
     code (plaidml_shape_get_nbytes rt0 (sp_get (TensorShape_ptr_ shape))
             (st_mem s, st_rt s)).1.1 = 0 ->
     exists rest,
       st_log (Buffer_alloc rt0 device shape s).2 =
       st_log s ++
         [Cshape_get_nbytes (sp_get (TensorShape_ptr_ shape));
          Cbuffer_alloc (c_str device)
            (plaidml_shape_get_nbytes rt0 (sp_get (TensorShape_ptr_ shape))
               (st_mem s, st_rt s)).1.2] ++ rest) /\
  (forall (device : string) (shape : TensorShape) (s : state rt_state)
          (r : shape_rec) (id : nat) (cb : ctrl),
     rs_shapes (st_rt s) !! sp_get (TensorShape_ptr_ shape) = Some r ->
     sp_ctrl (TensorShape_ptr_ shape) = Some id ->
     st_heap s !! id = Some cb ->
     (id < st_next s)%nat ->
     (TensorShape_nbytes rt shape s).1 = Ok (shape_nbytes r) /\
     exists b s' content,
       Buffer_alloc rt device shape s = (Ok b, s') /\
       rs_buffers (st_rt s') !! Buffer_as_ptr b = Some content /\
       Z.of_nat (length content) = shape_nbytes r).
Proof.
  split.
  - intros W rt0 device shape s Hc. apply Buffer_alloc_request. exact Hc.
  - intros device shape s r id cb Hr Hsp Hcb Hid. split.
    + unfold TensorShape_nbytes. erewrite call_invoke_ok;
        [reflexivity
        |simpl; unfold ref_shape_get_nbytes; simpl; rewrite Hr; reflexivity
        |reflexivity].
    + destruct (Buffer_alloc_ref device shape s r id cb Hr Hsp Hcb Hid) as [b [s' [Hb Hc]]].
      exists b, s', (replicate (Z.to_nat (shape_nbytes r)) fill).
      split; [exact Hb|]. split; [exact Hc|].
      rewrite length_replicate, Z2Nat.id by apply shape_nbytes_nonneg. reflexivity.
Qed.

End ReferenceFacts.


(** ** Concrete runs on the demo runtime *)

(** C4, counterexample.  With extents 1, 2^32, 2^32 the constructor passes
    the strides 0, 2^32, 1 to [plaidml_shape_alloc]: the first stride is 0,
    not the product 2^32 * 2^32 of the next stride and the next extent. *)
Lemma row_major_overflow_counterexample :
  st_log (TensorShape_sizes demo_runtime INT8 [1; 2 ^ 32; 2 ^ 32] (initial ∅)).2 =
    [Cshape_alloc INT8 3 [1; 2 ^ 32; 2 ^ 32] [0; 2 ^ 32; 1]] /\
  row_major_strides [1; 2 ^ 32; 2 ^ 32] = [0; 2 ^ 32; 1] /\
  ~ (forall (sizes : list Z) (i : nat) x y z,
       row_major_strides sizes !! i = Some x ->
       row_major_strides sizes !! S i = Some y ->
       sizes !! S i = Some z ->
       x = y * z).
Proof.
  split; [vm_compute; reflexivity|]. split; [vm_compute; reflexivity|].
  intros Hlaw.
  specialize (Hlaw [1; 2 ^ 32; 2 ^ 32] O 0 (2 ^ 32) (2 ^ 32)).
  assert (0 = 2 ^ 32 * 2 ^ 32) as Habs by (apply Hlaw; vm_compute; reflexivity).
  vm_compute in Habs. discriminate Habs.
Qed.

Lemma row_major_stride_law_witness :
  Z.of_nat (length [2; 3; 4]) <= 2 ^ 31 /\
  row_major_strides [2; 3; 4] = [12; 4; 1] /\
  row_major_strides [2; 3; 4] !! 2%nat = Some 1 /\
  exists rest,
    st_log (TensorShape_sizes demo_runtime FLOAT32 [2; 3; 4] (initial ∅)).2 =
    st_log (initial ∅) ++
      Cshape_alloc FLOAT32 (Z.of_nat (length [2; 3; 4])) [2; 3; 4]
                   (row_major_strides [2; 3; 4]) :: rest.
Proof.
  assert (Z.of_nat (length [2; 3; 4]) <= 2 ^ 31) as Hlen by (simpl; lia).
  split; [exact Hlen|]. split; [vm_compute; reflexivity|].
  pose proof (row_major_stride_law demo_runtime FLOAT32 [2; 3; 4] (initial ∅) Hlen)
    as [_ [Hlast [_ [_ Hlog]]]].
  split; [apply Hlast; discriminate | exact Hlog].
Defined.

Lemma rank_mismatch_raises_locally_witness :
  length [2; 3] <> length [1] /\
  TensorShape_sizes_strides demo_runtime INT8 [2; 3] [1] (initial ∅) =
    (Throw "Sizes and strides must have the same rank.", initial ∅).
Proof.
  assert (length [2; 3] <> length [1]) as Hne by (simpl; lia).
  split; [exact Hne|].
  exact (proj1 (rank_mismatch_raises_locally demo_runtime INT8 [2; 3] [1] (initial ∅) Hne)).
Defined.

Lemma error_bridge_witness :
  (call demo_runtime bad_nbytes (initial ∅)).1 = Throw "invalid shape handle" /\
  st_log (call demo_runtime bad_nbytes (initial ∅)).2 =
    [Cshape_get_nbytes 5; Cstring_ptr 1; Cstring_free 1] /\
  rs_strings (st_rt (call demo_runtime bad_nbytes (initial ∅)).2) = ∅.
Proof.
  pose proof (error_bridge demo_runtime bad_nbytes (initial ∅)
                (bad_nbytes (initial ∅)).2 (bad_nbytes (initial ∅)).1.1
                (bad_nbytes (initial ∅)).1.2 "invalid shape handle"
                eq_refl eq_refl) as [_ [_ Herr]].
  destruct Herr as [Hthrow [Hlog [_ [Hrt _]]]]; [vm_compute; discriminate|].
  split; [exact Hthrow|]. split; [exact Hlog|].
  rewrite Hrt. vm_compute. reflexivity.
Defined.

Lemma release_failure_is_raised_witness :
  (Deleter_call demo_runtime {| fn := buffer_free |} 9 (initial ∅)).1 =
    Throw "invalid buffer handle" /\
  (shared_ptr_dtor demo_runtime {| sp_get := 9; sp_ctrl := Some 0%nat |}
     (set_heap {[ 0%nat := {| cb_ptr := 9; cb_deleter := {| fn := buffer_free |};
                              use_count := 1 |} ]} (initial ∅))).1 =
    Terminate "invalid buffer handle".
Proof.
  split.
  - refine (proj1 (release_failure_is_raised demo_runtime {| fn := buffer_free |} 9
                     (initial ∅) "invalid buffer handle" _ _));
      vm_compute; [discriminate | reflexivity].
  - refine (proj2 (proj2 (release_failure_is_raised demo_runtime {| fn := buffer_free |} 9
                     (set_heap {[ 0%nat := {| cb_ptr := 9;
                                              cb_deleter := {| fn := buffer_free |};
                                              use_count := 1 |} ]} (initial ∅))
                     "invalid buffer handle" _ _))
                  {| sp_get := 9; sp_ctrl := Some 0%nat |} 0%nat eq_refl _);
      vm_compute; [discriminate | reflexivity | reflexivity].
Defined.

Lemma shared_handle_released_once_witness :
  owners 1 [op_copy; op_drop; op_copy; op_drop; op_drop] = Some 0%nat /\
  exists added,
    st_log (run_ops demo_runtime {| sp_get := 7; sp_ctrl := Some 0%nat |}
              [op_copy; op_drop; op_copy; op_drop; op_drop]
              (make_plaidml view_free 7 (initial ∅)).2).2 = [] ++ added /\
    count_call (Cview_free 7) added = 1%nat.
Proof.
  split; [reflexivity|].
  destruct (shared_handle_released_once demo_runtime view_free 7
              [op_copy; op_drop; op_copy; op_drop; op_drop] 0 (initial ∅) eq_refl)
    as [_ [_ [_ [added [Hlog [Hcount _]]]]]].
  exists added. split; [exact Hlog | exact Hcount].
Defined.

(** C1, counterexample.  A buffer is allocated and mapped, and the [Buffer]
    is destroyed while the [View] is in scope: [plaidml_buffer_free] has
    been invoked on the buffer (and the runtime holds no such buffer any
    more), although the view's control block is live with one owner and
    [plaidml_view_free] has not been invoked. *)
Lemma view_does_not_keep_buffer_alive :
  (view_outlives_buffer (initial ∅)).1 =
    Ok {| View_ptr_ := {| sp_get := 3; sp_ctrl := Some 2%nat |} |} /\
  st_heap (view_outlives_buffer (initial ∅)).2 !! 2%nat = Some (view_block 3) /\
  st_log (view_outlives_buffer (initial ∅)).2 =
    [Cshape_alloc INT8 1 [4] [1]; Cshape_get_nbytes 1; Cbuffer_alloc "cpu" 4;
     Cbuffer_mmap_current 2; Cshape_free 1; Cbuffer_free 2] /\
  rs_buffers (st_rt (view_outlives_buffer (initial ∅)).2) !! 2 = None /\
  rs_views (st_rt (view_outlives_buffer (initial ∅)).2) !! 3 =
    Some {| vw_buffer := 2; vw_data := 1 |}.
Proof.
  vm_compute. repeat split; reflexivity.
Qed.

Lemma view_owns_only_its_handle_witness :
  demo_alloc (initial ∅) = (Ok demo_buffer, (demo_alloc (initial ∅)).2) /\
  st_heap (Buffer_mmap_discard demo_runtime demo_buffer (demo_alloc (initial ∅)).2).2 !! 1%nat =
    Some {| cb_ptr := 2; cb_deleter := {| fn := buffer_free |}; use_count := 1 |} /\
  exists rest,
    st_log (shared_ptr_dtor demo_runtime (Buffer_ptr_ demo_buffer)
              (Buffer_mmap_discard demo_runtime demo_buffer (demo_alloc (initial ∅)).2).2).2 =
    st_log (Buffer_mmap_discard demo_runtime demo_buffer (demo_alloc (initial ∅)).2).2 ++
      Cbuffer_free 2 :: rest.
Proof.
  split; [vm_compute; reflexivity|].
  destruct (view_owns_only_its_handle demo_runtime demo_buffer
              (demo_alloc (initial ∅)).2
              (Buffer_mmap_discard demo_runtime demo_buffer (demo_alloc (initial ∅)).2).2
              1%nat
              {| cb_ptr := 2; cb_deleter := {| fn := buffer_free |}; use_count := 1 |}
              {| View_ptr_ := {| sp_get := 3; sp_ctrl := Some 2%nat |} |})
    as [Hcb [_ [_ [_ Hrel]]]].
  - reflexivity.
  - vm_compute. reflexivity.
  - vm_compute. lia.
  - right. vm_compute. reflexivity.
  - split; [exact Hcb|]. exact (proj1 (Hrel eq_refl eq_refl)).
Defined.

Lemma copy_round_trip_witness :
  st_mem ((Buffer_copy_from demo_runtime right_first demo_buffer 100 ;;;
           Buffer_copy_into demo_runtime right_first demo_buffer 200)
            (demo_alloc (initial {[ 100 := [Byte.x01; Byte.x02; Byte.x03; Byte.x04];
                                    200 := [Byte.xff; Byte.xff; Byte.xff; Byte.xff] ]})).2).2
    !! 200 = Some [Byte.x01; Byte.x02; Byte.x03; Byte.x04].
Proof.
  refine (proj1 (proj2 (copy_round_trip demo_repr Byte.x00 right_first right_first
            demo_buffer 100 200
            (demo_alloc (initial {[ 100 := [Byte.x01; Byte.x02; Byte.x03; Byte.x04];
                                    200 := [Byte.xff; Byte.xff; Byte.xff; Byte.xff] ]})).2
            [Byte.x00; Byte.x00; Byte.x00; Byte.x00]
            [Byte.x01; Byte.x02; Byte.x03; Byte.x04]
            [Byte.xff; Byte.xff; Byte.xff; Byte.xff] _ _ _ _ _ _)));
    try (vm_compute; reflexivity).
  vm_compute. discriminate.
Defined.



Lemma buffer_alloc_requests_shape_nbytes_witness :
  exists rest,
    st_log (Buffer_alloc demo_runtime "cpu"
              {| TensorShape_ptr_ := {| sp_get := 1; sp_ctrl := Some 0%nat |} |}
              (TensorShape_sizes demo_runtime FLOAT32 [2; 3] (initial ∅)).2).2 =
    [Cshape_alloc FLOAT32 2 [2; 3] [3; 1]] ++
      [Cshape_get_nbytes 1; Cbuffer_alloc "cpu" 24] ++ rest.
Proof.
  refine (proj1 (buffer_alloc_requests_shape_nbytes demo_repr Byte.x00) rt_state
            demo_runtime "cpu"
            {| TensorShape_ptr_ := {| sp_get := 1; sp_ctrl := Some 0%nat |} |}
            (TensorShape_sizes demo_runtime FLOAT32 [2; 3] (initial ∅)).2 _).
  vm_compute. reflexivity.
Defined.

Lemma default_buffer_passes_null_witness :
  Buffer_default demo_runtime (initial ∅) =
    (Ok {| Buffer_ptr_ := shared_ptr_empty;
           Buffer_shape_ := {| TensorShape_ptr_ := {| sp_get := 1; sp_ctrl := Some 0%nat |} |} |},
     (Buffer_default demo_runtime (initial ∅)).2) /\
  exists rest,
    st_log (Buffer_copy_from demo_runtime right_first
              {| Buffer_ptr_ := shared_ptr_empty;
                 Buffer_shape_ := {| TensorShape_ptr_ := {| sp_get := 1; sp_ctrl := Some 0%nat |} |} |}
              100 (initial ∅)).2 =
    st_log (initial ∅) ++ Cbuffer_mmap_discard nullptr :: rest.
Proof.
  assert (Buffer_default demo_runtime (initial ∅) =
    (Ok {| Buffer_ptr_ := shared_ptr_empty;
           Buffer_shape_ := {| TensorShape_ptr_ := {| sp_get := 1; sp_ctrl := Some 0%nat |} |} |},
     (Buffer_default demo_runtime (initial ∅)).2)) as Hdef by (vm_compute; reflexivity).
  split; [exact Hdef|].
  destruct (default_buffer_passes_null demo_runtime _ _ _ Hdef) as [_ [_ Hops]].
  destruct (Hops right_first (initial ∅) 200 100) as [_ [_ [_ [Hfrom _]]]].
  exact Hfrom.
Defined.

(** * Further properties of the header *)

(** ** Strides in closed form *)

Lemma to_int64_mul_congr a b c :
  to_int64 (to_uint64 (a * to_uint64 b) * c) = to_int64 (a * (b * c)).
Proof.
  apply to_int64_congr. unfold to_uint64.
  rewrite Zmult_mod_idemp_l.
  rewrite <- Z.mul_assoc, (Z.mul_comm a), <- Z.mul_assoc.
  rewrite Zmult_mod_idemp_l. f_equal. lia.
Qed.

Lemma stride_loop_closed k : forall stride (sizes strides : list Z) (j : nat),
  (k <= length strides)%nat -> (k <= length sizes)%nat -> (j < k)%nat ->
  stride_loop k stride sizes strides !! j =
  Some (to_int64 (stride * fold_right Z.mul 1 (take (k - S j) (drop (S j) sizes)))).
Proof.
  induction k as [|i IH]; intros stride sizes strides j Hk Hs Hj; [lia|].
  destruct (decide (j = i)) as [->|Hne].
  - rewrite stride_loop_top by lia. rewrite Nat.sub_diag. simpl.
    rewrite Z.mul_1_r. reflexivity.
  - rewrite stride_loop_S, IH by (rewrite ?length_insert; lia).
    f_equal.
    replace (S i - S j)%nat with (S (i - S j)) by lia.
    assert (drop (S j) sizes !! (i - S j)%nat = Some (sizes !!! i)) as Hi.
    { rewrite lookup_drop. replace (S j + (i - S j))%nat with i by lia.
      apply list_lookup_lookup_total_lt. lia. }
    rewrite (take_S_r _ _ _ Hi), fold_right_app. simpl.
    rewrite Z.mul_1_r.
    generalize (take (i - S j) (drop (S j) sizes)). intros l.
    rewrite to_int64_mul_congr. f_equal. f_equal.
    induction l as [|x l IHl]; simpl; [lia|].
    rewrite <- IHl. lia.
Qed.

(** X1. For extents lists of at most 2^31 entries, every stride the
    extents-only constructor computes is the product of all later extents,
    reduced to 64-bit two's complement; it is that product itself whenever
    the product fits in [int64_t]. *)
Theorem row_major_strides_closed_form (sizes : list Z) (i : nat) :
  Z.of_nat (length sizes) <= 2 ^ 31 ->
  (i < length sizes)%nat ->
  row_major_strides sizes !! i =
    Some (to_int64 (fold_right Z.mul 1 (drop (S i) sizes))) /\
  (in_int64 (fold_right Z.mul 1 (drop (S i) sizes)) ->
   row_major_strides sizes !! i = Some (fold_right Z.mul 1 (drop (S i) sizes))).
Proof.
  intros Hlen Hi.
  assert (row_major_strides sizes !! i =
          Some (to_int64 (fold_right Z.mul 1 (drop (S i) sizes)))) as Hclosed.
  { unfold row_major_strides.
    rewrite loop_start_small, Nat2Z.id by exact Hlen.
    rewrite stride_loop_closed by (rewrite ?length_replicate; lia).
    rewrite Z.mul_1_l, take_ge by (rewrite length_drop; lia). reflexivity. }
  split; [exact Hclosed|].
  intros Hin. rewrite Hclosed, to_int64_id by exact Hin. reflexivity.
Qed.

Lemma row_major_strides_closed_form_witness :
  Z.of_nat (length [2; 3; 4]) <= 2 ^ 31 /\ (0 < length [2; 3; 4])%nat /\
  row_major_strides [2; 3; 4] !! 0%nat = Some 12.
Proof.
  assert (Z.of_nat (length [2; 3; 4]) <= 2 ^ 31) as Hlen by (simpl; lia).
  assert (0 < length [2; 3; 4])%nat as Hi by (simpl; lia).
  split; [exact Hlen|]. split; [exact Hi|].
  apply (proj2 (row_major_strides_closed_form [2; 3; 4] 0 Hlen Hi)).
  unfold in_int64. simpl. lia.
Defined.

(** ** More about the wrapper, over any runtime *)

Section MoreWrapperFacts.

Context {W : Type} (rt : Runtime W).

(** *** Confined computations *)

Lemma confined_ret {A} P (a : A) : confined P (@ret W A a).
Proof.
  intros s. split; [discriminate|]. split; [reflexivity|]. split; [reflexivity|].
  exists []. split; [simpl; rewrite app_nil_r; reflexivity | constructor].
Qed.

Lemma confined_throw {A} P m : confined P (@throw W A m).
Proof.
  intros s. split; [discriminate|]. split; [reflexivity|]. split; [reflexivity|].
  exists []. split; [simpl; rewrite app_nil_r; reflexivity | constructor].
Qed.

Lemma confined_bind {A B} P (c : M W A) (k : A -> M W B) :
  confined P c -> (forall a, confined P (k a)) -> confined P (bind c k).
Proof.
  intros Hc Hk s. destruct (Hc s) as [Hterm [Hheap [Hnext [r1 [Hlog HP]]]]].
  unfold bind. destruct (c s).1 as [a|m|m|] eqn:Hout; simpl.
  - destruct (Hk a (c s).2) as [Hterm2 [Hheap2 [Hnext2 [r2 [Hlog2 HP2]]]]].
    split; [exact Hterm2|]. split; [congruence|]. split; [congruence|].
    exists (r1 ++ r2). split; [rewrite Hlog2, Hlog, app_assoc; reflexivity|].
    apply Forall_app. split; assumption.
  - split; [discriminate|]. eauto.
  - exfalso. apply (Hterm m). reflexivity.
  - split; [discriminate|]. eauto.
Qed.

Lemma confined_operands {A B} P o (c1 : M W A) (c2 : M W B) :
  confined P c1 -> confined P c2 -> confined P (operands o c1 c2).
Proof.
  intros H1 H2. destruct o; simpl.
  - apply confined_bind; [exact H1|]. intros a.
    apply confined_bind; [exact H2|]. intros b. apply confined_ret.
  - apply confined_bind; [exact H2|]. intros b.
    apply confined_bind; [exact H1|]. intros a. apply confined_ret.
Qed.

Lemma confined_weaken {A} (P Q : fcall -> Prop) (c : M W A) :
  (forall e, P e -> Q e) -> confined P c -> confined Q c.
Proof.
  intros HPQ Hc s. destruct (Hc s) as [Hterm [Hheap [Hnext [r [Hlog HP]]]]].
  split; [exact Hterm|]. split; [exact Hheap|]. split; [exact Hnext|].
  exists r. split; [exact Hlog|]. eapply Forall_impl; eauto.
Qed.

Lemma confined_call {R} P ev (f : foreign W R) :
  P ev -> (forall e, string_event e -> P e) ->
  confined P (call rt (invoke ev f)).
Proof.
  intros Hev Hstr s. rewrite call_invoke. case_decide; simpl.
  - split; [discriminate|]. split; [reflexivity|]. split; [reflexivity|].
    exists [ev]. split; [reflexivity|]. repeat constructor. exact Hev.
  - split; [discriminate|]. split; [reflexivity|]. split; [reflexivity|].
    eexists. split; [reflexivity|].
    repeat constructor; [exact Hev | apply Hstr; exact I | apply Hstr; exact I].
Qed.

Lemma confined_call_void P ev (f : foreign W unit) :
  P ev -> (forall e, string_event e -> P e) ->
  confined P (call_void rt (invoke ev f)).
Proof.
  intros Hev Hstr s. rewrite call_void_is_call. apply confined_call; assumption.
Qed.

Lemma confined_str P p :
  (forall e, string_event e -> P e) -> confined P (str rt p).
Proof.
  intros Hstr s. split; [discriminate|]. split; [reflexivity|]. split; [reflexivity|].
  eexists. split; [reflexivity|].
  repeat constructor; apply Hstr; exact I.
Qed.

Lemma confined_memcpy P dst src n : confined P (@memcpy W dst src n).
Proof.
  intros s. unfold memcpy.
  destruct (st_mem s !! src); [destruct (st_mem s !! dst); [case_decide|]|];
    simpl; (split; [discriminate|]); (split; [reflexivity|]); (split; [reflexivity|]);
    exists []; (split; [rewrite app_nil_r; reflexivity | constructor]).
Qed.

(** *** The two constructors with extents *)

(** X2. The extents-only constructor is the extents-and-strides
    constructor applied to the row-major strides it computes: the two
    agree on every input and in every state. *)
Theorem TensorShape_sizes_is_sizes_strides (dtype : DType) (sizes : list Z) (s : state W) :
  TensorShape_sizes rt dtype sizes s =
  TensorShape_sizes_strides rt dtype sizes (row_major_strides sizes) s.
Proof.
  unfold TensorShape_sizes, TensorShape_sizes_strides.
  rewrite decide_False; [reflexivity|].
  rewrite row_major_strides_length. intros Hne. apply Hne. reflexivity.
Qed.

Lemma shape_ctor_log dtype sizes strides (s : state W) :
  length sizes = length strides ->
  exists tail,
    st_log ((p <- call rt (shape_alloc rt dtype (Z.of_nat (length sizes)) sizes strides) ;;
             sp <- make_plaidml_shape p ;;
             ret {| TensorShape_ptr_ := sp |}) s).2 =
      st_log s ++ Cshape_alloc dtype (Z.of_nat (length sizes)) sizes strides :: tail /\
    Forall string_event tail.
Proof.
  intros Hlen. unfold bind at 1, shape_alloc. rewrite call_invoke. case_decide; simpl.
  - exists []. split; [reflexivity | constructor].
  - eexists. split; [reflexivity|]. repeat constructor.
Qed.

Lemma string_event_alloc_args_agree e : string_event e -> alloc_args_agree e.
Proof. destruct e; simpl; intros H; try exact I; destruct H. Qed.

(** X3. Whatever the arguments, the three constructors never hand
    [plaidml_shape_alloc] a rank that differs from the length of either
    array: every crossing they make satisfies [alloc_args_agree], and when
    the extents and strides differ in length they make no crossing. *)
Theorem shape_alloc_arguments_agree (dtype : DType) (sizes strides : list Z) (s : state W) :
  (exists added, st_log (TensorShape_default rt s).2 = st_log s ++ added /\
                 Forall alloc_args_agree added) /\
  (exists added, st_log (TensorShape_sizes rt dtype sizes s).2 = st_log s ++ added /\
                 Forall alloc_args_agree added) /\
  (exists added, st_log (TensorShape_sizes_strides rt dtype sizes strides s).2 =
                   st_log s ++ added /\
                 Forall alloc_args_agree added /\
                 (length sizes <> length strides -> added = [])).
Proof.
  assert (forall dt sz st, length sz = length st ->
            exists added,
              st_log ((p <- call rt (shape_alloc rt dt (Z.of_nat (length sz)) sz st) ;;
                       sp <- make_plaidml_shape p ;;
                       ret {| TensorShape_ptr_ := sp |}) s).2 = st_log s ++ added /\
              Forall alloc_args_agree added) as Hctor.
  { intros dt sz st Hlen. destruct (shape_ctor_log dt sz st s Hlen) as [tail [Hlog Htail]].
    eexists. split; [exact Hlog|]. constructor.
    - simpl. split; [reflexivity | exact Hlen].
    - eapply Forall_impl; [exact Htail | exact string_event_alloc_args_agree]. }
  split; [|split].
  - exact (Hctor INVALID [] [] eq_refl).
  - apply Hctor. symmetry. apply row_major_strides_length.
  - unfold TensorShape_sizes_strides. case_decide as Hne.
    + exists []. simpl. rewrite app_nil_r. repeat split; constructor.
    + destruct (Hctor dtype sizes strides) as [added [Hlog Hall]].
      { destruct (decide (length sizes = length strides)) as [Heq|Hneq];
          [exact Heq | contradiction]. }
      exists added. split; [exact Hlog|]. split; [exact Hall|].
      intros Hbad. contradiction.
Qed.

(** *** Foreign strings *)

(** X4. [TensorShape::str()] makes exactly three crossings: the
    [plaidml_shape_repr] call, then one read and one release of a single
    string handle, which is the returned text on success and the error
    message on failure.  The handle is released exactly once either way,
    the text read before the release is what comes back (returned or
    thrown), and no control block is touched. *)
Theorem TensorShape_str_releases_once (t : TensorShape) (s : state W) :
  let p := sp_get (TensorShape_ptr_ t) in
  let r := plaidml_shape_repr rt p (st_mem s, st_rt s) in
  let h := if decide (code r.1.1 = 0) then r.1.2 else msg r.1.1 in
  st_log (TensorShape_str rt t s).2 =
    st_log s ++ [Cshape_repr p; Cstring_ptr h; Cstring_free h] /\
  count_call (Cstring_free h) [Cshape_repr p; Cstring_ptr h; Cstring_free h] = 1%nat /\
  (TensorShape_str rt t s).1 =
    (if decide (code r.1.1 = 0)
     then Ok (plaidml_string_ptr rt h r.2.2)
     else Throw (plaidml_string_ptr rt h r.2.2)) /\
  st_rt (TensorShape_str rt t s).2 = plaidml_string_free rt h r.2.2 /\
  st_heap (TensorShape_str rt t s).2 = st_heap s.
Proof.
  intros p r h. subst p r h. unfold TensorShape_str, bind.
  rewrite call_invoke.
  destruct (decide (code (plaidml_shape_repr rt (sp_get (TensorShape_ptr_ t))
                            (st_mem s, st_rt s)).1.1 = 0)) as [Hc|Hc]; simpl.
  - rewrite <- app_assoc. simpl. repeat split.
    unfold count_call. rewrite !filter_cons, filter_nil.
    repeat case_decide; try discriminate; try congruence; reflexivity.
  - repeat split.
    unfold count_call. rewrite !filter_cons, filter_nil.
    repeat case_decide; try discriminate; try congruence; reflexivity.
Qed.

(** X5. [Settings::get] reads and releases exactly one string handle after
    the runtime call: on success the handle the call returned, whose text
    is the result; on failure the error message, whose text is thrown, and
    then the returned pointer is neither read nor released. *)
Theorem Settings_get_releases_once
    (plaidml_settings_get : string -> state W -> (plaidml_error * Z) * state W)
    (key : string) (s s1 : state W) (e : plaidml_error) (p : Z) :
  plaidml_settings_get (c_str key) s = ((e, p), s1) ->
  let h := if decide (code e = 0) then p else msg e in
  (Settings_get rt plaidml_settings_get key s).1 =
    (if decide (code e = 0)
     then Ok (plaidml_string_ptr rt h (st_rt s1))
     else Throw (plaidml_string_ptr rt h (st_rt s1))) /\
  st_log (Settings_get rt plaidml_settings_get key s).2 =
    st_log s1 ++ [Cstring_ptr h; Cstring_free h] /\
  st_rt (Settings_get rt plaidml_settings_get key s).2 =
    plaidml_string_free rt h (st_rt s1) /\
  st_heap (Settings_get rt plaidml_settings_get key s).2 = st_heap s1.
Proof.
  intros Hget h. subst h. unfold Settings_get.
  destruct (decide (code e = 0)) as [Hc|Hc].
  - erewrite bind_ok by (rewrite call_ok by (rewrite Hget; exact Hc); reflexivity).
    rewrite Hget. simpl. repeat split.
  - erewrite bind_throw by (rewrite call_err by (rewrite Hget; exact Hc); reflexivity).
    rewrite Hget. simpl. repeat split.
Qed.

Lemma c_str_cut (a b : string) : c_str (a +:+ String Ascii.zero b) = c_str a.
Proof.
  induction a as [|c a IH]; simpl.
  - reflexivity.
  - destruct (Ascii.eqb c Ascii.zero); [reflexivity|]. rewrite IH. reflexivity.
Qed.

(** X6. A device identifier, a settings key and a settings value reach the
    runtime through [c_str()], so only the characters before the first NUL
    count: appending a NUL and anything after it to any of them changes
    nothing in what [Buffer(device, shape)], [Settings::get] and
    [Settings::set] do. *)
Theorem strings_cut_at_first_nul
    (plaidml_settings_get : string -> state W -> (plaidml_error * Z) * state W)
    (plaidml_settings_set : string -> string -> state W -> (plaidml_error * unit) * state W)
    (a b a' b' : string) (shape : TensorShape) (s : state W) :
  Buffer_alloc rt (a +:+ String Ascii.zero b) shape s = Buffer_alloc rt a shape s /\
  Settings_get rt plaidml_settings_get (a +:+ String Ascii.zero b) s =
    Settings_get rt plaidml_settings_get a s /\
  Settings_set rt plaidml_settings_set (a +:+ String Ascii.zero b)
               (a' +:+ String Ascii.zero b') s =
    Settings_set rt plaidml_settings_set a a' s.
Proof.
  unfold Buffer_alloc, Settings_get, Settings_set.
  rewrite !c_str_cut. repeat split.
Qed.

(** *** Const member functions *)

Lemma confined_TensorShape_str P t :
  P (Cshape_repr (sp_get (TensorShape_ptr_ t))) ->
  (forall e, string_event e -> P e) ->
  confined P (TensorShape_str rt t).
Proof.
  intros Hev Hstr. unfold TensorShape_str.
  apply confined_bind; [apply confined_call; assumption|].
  intros r. apply confined_str. exact Hstr.
Qed.

(** X7. The accessors [dtype()], [ndims()], [nbytes()], [str()],
    [operator==] (in either order of its two [str()] calls), [data()],
    [size()] and [writeback()] never change who owns what: in every state
    and whatever the runtime answers, the control blocks are exactly as
    before, so none of them can release a shape or a view, and none of them
    ends the program from a destructor. *)
Theorem accessors_keep_ownership (o : eval_order) (t rhs : TensorShape) (v : View) :
  confined (fun _ => True) (TensorShape_dtype rt t) /\
  confined (fun _ => True) (TensorShape_ndims rt t) /\
  confined (fun _ => True) (TensorShape_nbytes rt t) /\
  confined (fun _ => True) (TensorShape_str rt t) /\
  confined (fun _ => True) (TensorShape_eq rt o t rhs) /\
  confined (fun _ => True) (View_data rt v) /\
  confined (fun _ => True) (View_size rt v) /\
  confined (fun _ => True) (View_writeback rt v).
Proof.
  split; [apply confined_call; auto|].
  split; [apply confined_call; auto|].
  split; [apply confined_call; auto|].
  split; [apply confined_TensorShape_str; auto|].
  split.
  { unfold TensorShape_eq.
    apply confined_bind; [|intros texts; apply confined_ret].
    apply confined_operands; apply confined_TensorShape_str; auto. }
  split; [apply confined_call; auto|].
  split; [apply confined_call; auto|].
  apply confined_call_void; auto.
Qed.

(** *** Ownership of shapes and buffers *)

Lemma set_heap_same (s : state W) : set_heap (st_heap s) s = s.
Proof. destruct s; reflexivity. Qed.

Lemma last_owner_outcome sp id cb s :
  sp_ctrl sp = Some id -> st_heap s !! id = Some cb -> use_count cb = 1%nat ->
  ((shared_ptr_dtor rt sp s).1 = Ok tt \/ exists m, (shared_ptr_dtor rt sp s).1 = Terminate m) /\
  st_heap (shared_ptr_dtor rt sp s).2 = delete id (st_heap s) /\
  st_next (shared_ptr_dtor rt sp s).2 = st_next s /\
  exists tail,
    st_log (shared_ptr_dtor rt sp s).2 =
      st_log s ++ free_event (fn (cb_deleter cb)) (cb_ptr cb) :: tail /\
    Forall string_event tail.
Proof.
  intros Hsp Hcb Hone.
  rewrite (shared_ptr_dtor_last rt sp id cb s Hsp Hcb Hone).
  unfold noexcept. rewrite Deleter_call_spec.
  case_decide; simpl.
  - split; [left; reflexivity|]. split; [reflexivity|]. split; [reflexivity|].
    exists []. split; [reflexivity | constructor].
  - split; [right; eauto|]. split; [reflexivity|]. split; [reflexivity|].
    eexists. split; [reflexivity|]. repeat constructor.
Qed.

Lemma shared_ptr_copy_then_dtor sp id cb (s : state W) :
  sp_ctrl sp = Some id -> st_heap s !! id = Some cb -> (1 <= use_count cb)%nat ->
  (sp' <- shared_ptr_copy sp ;; shared_ptr_dtor rt sp') s = (Ok tt, s).
Proof.
  intros Hsp Hcb Hcount.
  erewrite bind_ok by (apply (shared_ptr_copy_live sp id cb s Hsp Hcb)).
  erewrite shared_ptr_dtor_shared;
    [|exact Hsp | apply lookup_insert_eq | simpl; lia].
  simpl. unfold set_heap. simpl.
  rewrite insert_insert_eq.
  replace {| cb_ptr := cb_ptr cb; cb_deleter := cb_deleter cb; use_count := use_count cb |}
    with cb by (destruct cb; reflexivity).
  rewrite insert_id by exact Hcb. destruct s; reflexivity.
Qed.

(** X8. Copying a live [TensorShape] (by the copy constructor or through
    the constructor that takes a [shared_ptr]) and then destroying the copy
    leaves the whole program state exactly as it was: no crossing is made,
    nothing is released, and the owner count is back where it started. *)
Theorem TensorShape_copy_then_drop (t : TensorShape) (id : nat) (cb : ctrl) (s : state W) :
  sp_ctrl (TensorShape_ptr_ t) = Some id ->
  st_heap s !! id = Some cb ->
  (1 <= use_count cb)%nat ->
  (t' <- TensorShape_copy t ;; TensorShape_dtor rt t') s = (Ok tt, s) /\
  (t' <- TensorShape_from_ptr (TensorShape_ptr_ t) ;; TensorShape_dtor rt t') s = (Ok tt, s) /\
  (TensorShape_copy t s).1 = Ok t.
Proof.
  intros Hsp Hcb Hcount.
  pose proof (shared_ptr_copy_then_dtor _ _ _ s Hsp Hcb Hcount) as Hround.
  pose proof (shared_ptr_copy_live _ _ _ s Hsp Hcb) as Hcopy.
  assert (shared_ptr_dtor rt (TensorShape_ptr_ t)
            (set_heap (<[id := {| cb_ptr := cb_ptr cb; cb_deleter := cb_deleter cb;
                                  use_count := S (use_count cb) |}]> (st_heap s)) s)
          = (Ok tt, s)) as Hdrop.
  { etransitivity; [|exact Hround]. symmetry. apply bind_ok. exact Hcopy. }
  unfold TensorShape_copy, TensorShape_from_ptr, TensorShape_dtor.
  split; [|split].
  - erewrite bind_ok.
    2:{ erewrite bind_ok by exact Hcopy. reflexivity. }
    exact Hdrop.
  - erewrite bind_ok.
    2:{ erewrite bind_ok by exact Hcopy. reflexivity. }
    exact Hdrop.
  - erewrite bind_ok by exact Hcopy. simpl. destruct t; reflexivity.
Qed.

Lemma Buffer_adopt_spec (p : Z) (shape : TensorShape) (ids : nat) (cbs : ctrl) (s : state W) :
  sp_ctrl (TensorShape_ptr_ shape) = Some ids ->
  st_heap s !! ids = Some cbs ->
  (ids < st_next s)%nat ->
  Buffer_adopt p shape s =
  (Ok {| Buffer_ptr_ := {| sp_get := p; sp_ctrl := Some (st_next s) |};
         Buffer_shape_ := shape |},
   {| st_mem := st_mem s; st_rt := st_rt s; st_log := st_log s;
      st_heap :=
        <[ids := {| cb_ptr := cb_ptr cbs; cb_deleter := cb_deleter cbs;
                    use_count := S (use_count cbs) |}]>
          (<[st_next s := {| cb_ptr := p; cb_deleter := {| fn := buffer_free |};
                             use_count := 1 |}]> (st_heap s));
      st_next := S (st_next s) |}).
Proof.
  intros Hsp Hcb Hid. unfold Buffer_adopt, make_plaidml_buffer.
  erewrite bind_ok by reflexivity.
  erewrite bind_ok.
  2:{ unfold TensorShape_copy. erewrite bind_ok; [reflexivity|].
      eapply shared_ptr_copy_live; [exact Hsp|].
      simpl. rewrite lookup_insert_ne by lia. exact Hcb. }
  destruct shape; reflexivity.
Qed.

(** X9. The adopting constructor makes no crossing and becomes the single
    owner of the raw pointer through a fresh control block, sharing the
    shape with the caller.  Control blocks are per adoption, not per
    pointer: adopting the same raw pointer twice gives two independent
    single owners, and destroying the two handles invokes
    [plaidml_buffer_free] on that pointer twice. *)
Theorem adopting_twice_frees_twice (p : Z) (shape : TensorShape) (ids : nat) (cbs : ctrl)
    (s : state W) :
  sp_ctrl (TensorShape_ptr_ shape) = Some ids ->
  st_heap s !! ids = Some cbs ->
  (ids < st_next s)%nat ->
  let b1 := {| Buffer_ptr_ := {| sp_get := p; sp_ctrl := Some (st_next s) |};
               Buffer_shape_ := shape |} in
  let b2 := {| Buffer_ptr_ := {| sp_get := p; sp_ctrl := Some (S (st_next s)) |};
               Buffer_shape_ := shape |} in
  let s1 := (Buffer_adopt p shape s).2 in
  let s2 := (Buffer_adopt p shape s1).2 in
  let d1 := (shared_ptr_dtor rt (Buffer_ptr_ b1) s2).2 in
  let d2 := (shared_ptr_dtor rt (Buffer_ptr_ b2) d1).2 in
  Buffer_adopt p shape s = (Ok b1, s1) /\
  Buffer_adopt p shape s1 = (Ok b2, s2) /\
  st_log s2 = st_log s /\
  st_heap s2 !! st_next s =
    Some {| cb_ptr := p; cb_deleter := {| fn := buffer_free |}; use_count := 1 |} /\
  st_heap s2 !! S (st_next s) =
    Some {| cb_ptr := p; cb_deleter := {| fn := buffer_free |}; use_count := 1 |} /\
  (exists tail, st_log d1 = st_log s ++ Cbuffer_free p :: tail /\ Forall string_event tail) /\
  (exists tail, st_log d2 = st_log d1 ++ Cbuffer_free p :: tail /\ Forall string_event tail).
Proof.
  intros Hsp Hcb Hid b1 b2 s1 s2 d1 d2.
  pose proof (Buffer_adopt_spec p shape ids cbs s Hsp Hcb Hid) as H1.
  assert (st_heap s1 !! ids =
          Some {| cb_ptr := cb_ptr cbs; cb_deleter := cb_deleter cbs;
                  use_count := S (use_count cbs) |}) as Hcb1
    by (subst s1; rewrite H1; simpl; apply lookup_insert_eq).
  assert (st_next s1 = S (st_next s)) as Hn1 by (subst s1; rewrite H1; reflexivity).
  assert (ids < st_next s1)%nat as Hid1 by lia.
  pose proof (Buffer_adopt_spec p shape ids _ s1 Hsp Hcb1 Hid1) as H2.
  rewrite Hn1 in H2.
  assert (st_heap s2 !! st_next s =
          Some {| cb_ptr := p; cb_deleter := {| fn := buffer_free |}; use_count := 1 |}) as Hb1.
  { subst s2. rewrite H2. simpl.
    rewrite lookup_insert_ne by lia. rewrite lookup_insert_ne by lia.
    subst s1. rewrite H1. simpl.
    rewrite lookup_insert_ne by lia. apply lookup_insert_eq. }
  assert (st_heap s2 !! S (st_next s) =
          Some {| cb_ptr := p; cb_deleter := {| fn := buffer_free |}; use_count := 1 |}) as Hb2.
  { subst s2. rewrite H2. simpl.
    rewrite lookup_insert_ne by lia. apply lookup_insert_eq. }
  assert (st_log s2 = st_log s) as Hlog.
  { subst s2. rewrite H2. simpl. subst s1. rewrite H1. reflexivity. }
  split; [subst s1; rewrite H1; reflexivity|].
  split; [subst s2; rewrite H2; reflexivity|].
  split; [exact Hlog|]. split; [exact Hb1|]. split; [exact Hb2|].
  destruct (last_owner_outcome (Buffer_ptr_ b1) (st_next s) _ s2 eq_refl Hb1 eq_refl)
    as [_ [Hheap1 [_ [tail1 [Hlog1 Htail1]]]]].
  fold d1 in Hheap1, Hlog1.
  assert (st_heap d1 !! S (st_next s) =
          Some {| cb_ptr := p; cb_deleter := {| fn := buffer_free |}; use_count := 1 |}) as Hb2'
    by (rewrite Hheap1, lookup_delete_ne by lia; exact Hb2).
  destruct (last_owner_outcome (Buffer_ptr_ b2) (S (st_next s)) _ d1 eq_refl Hb2' eq_refl)
    as [_ [_ [_ [tail2 [Hlog2 Htail2]]]]].
  fold d2 in Hlog2.
  split.
  - exists tail1. rewrite <- Hlog. split; [exact Hlog1 | exact Htail1].
  - exists tail2. split; [exact Hlog2 | exact Htail2].
Qed.

Lemma Buffer_alloc_rest_never_throws (shape : TensorShape) (pb : Z) (s : state W) m :
  ((sp <- make_plaidml_buffer pb ;;
    shape' <- TensorShape_copy shape ;;
    ret {| Buffer_ptr_ := sp; Buffer_shape_ := shape' |}) s).1 <> Throw m.
Proof.
  unfold make_plaidml_buffer.
  erewrite bind_ok by reflexivity.
  unfold TensorShape_copy, bind, shared_ptr_copy, ret. simpl.
  destruct (sp_ctrl (TensorShape_ptr_ shape)) as [ids|]; simpl; [|discriminate].
  destruct (_ !! ids) as [cbs|]; simpl; discriminate.
Qed.

(** X10. When the allocating constructor throws it leaves no trace in the
    ownership structure.  If [shape.nbytes()] fails, its message is thrown
    and [plaidml_buffer_alloc] is never invoked; if [plaidml_buffer_alloc]
    fails, its message is thrown.  Whenever the constructor throws, no
    control block has been created and the shape has gained no owner. *)
Theorem Buffer_alloc_failure_is_clean (device : string) (shape : TensorShape) (s : state W) :
  let p := sp_get (TensorShape_ptr_ shape) in
  let get := plaidml_shape_get_nbytes rt p in
  let s1 := after_invoke (Cshape_get_nbytes p) get s in
  let alloc := plaidml_buffer_alloc rt (c_str device) (get (st_mem s, st_rt s)).1.2 in
  (code (get (st_mem s, st_rt s)).1.1 <> 0 ->
     (Buffer_alloc rt device shape s).1 = Throw (failure_text rt get s) /\
     st_log (Buffer_alloc rt device shape s).2 =
       st_log s ++ [Cshape_get_nbytes p; Cstring_ptr (msg (get (st_mem s, st_rt s)).1.1);
                    Cstring_free (msg (get (st_mem s, st_rt s)).1.1)]) /\
  (code (get (st_mem s, st_rt s)).1.1 = 0 ->
   code (alloc (st_mem s1, st_rt s1)).1.1 <> 0 ->
     (Buffer_alloc rt device shape s).1 = Throw (failure_text rt alloc s1)) /\
  (forall m, (Buffer_alloc rt device shape s).1 = Throw m ->
     st_heap (Buffer_alloc rt device shape s).2 = st_heap s /\
     st_next (Buffer_alloc rt device shape s).2 = st_next s).
Proof.
  intros p get s1 alloc.
  assert (TensorShape_nbytes rt shape s =
          if decide (code (get (st_mem s, st_rt s)).1.1 = 0)
          then (Ok (get (st_mem s, st_rt s)).1.2, s1)
          else (Throw (failure_text rt get s), after_failure rt (Cshape_get_nbytes p) get s))
    as Hn by apply call_invoke.
  split; [|split].
  - intros Hc. rewrite decide_False in Hn by exact Hc.
    unfold Buffer_alloc. erewrite bind_throw by exact Hn. split; reflexivity.
  - intros Hc Ha. rewrite decide_True in Hn by exact Hc.
    unfold Buffer_alloc. erewrite bind_ok by exact Hn.
    erewrite bind_throw; [reflexivity|].
    rewrite call_invoke. rewrite decide_False by exact Ha. reflexivity.
  - intros m. unfold Buffer_alloc.
    destruct (decide (code (get (st_mem s, st_rt s)).1.1 = 0)) as [Hc|Hc].
    + erewrite bind_ok by exact Hn.
      destruct (decide (code (alloc (st_mem s1, st_rt s1)).1.1 = 0)) as [Ha|Ha].
      * erewrite bind_ok
          by (rewrite call_invoke; rewrite decide_True by exact Ha; reflexivity).
        intros Hthrow. exfalso. eapply Buffer_alloc_rest_never_throws. exact Hthrow.
      * erewrite bind_throw
          by (rewrite call_invoke; rewrite decide_False by exact Ha; reflexivity).
        intros _. split; reflexivity.
    + erewrite bind_throw by exact Hn. intros _. split; reflexivity.
Qed.

Lemma Buffer_alloc_ok_codes (device : string) (shape : TensorShape) (s : state W) :
  (exists b, (Buffer_alloc rt device shape s).1 = Ok b) ->
  code (plaidml_shape_get_nbytes rt (sp_get (TensorShape_ptr_ shape)) (st_mem s, st_rt s)).1.1 = 0 /\
  code (plaidml_buffer_alloc rt (c_str device)
          (plaidml_shape_get_nbytes rt (sp_get (TensorShape_ptr_ shape))
             (st_mem s, st_rt s)).1.2
          (st_mem (after_invoke (Cshape_get_nbytes (sp_get (TensorShape_ptr_ shape)))
                     (plaidml_shape_get_nbytes rt (sp_get (TensorShape_ptr_ shape))) s),
           st_rt (after_invoke (Cshape_get_nbytes (sp_get (TensorShape_ptr_ shape)))
                    (plaidml_shape_get_nbytes rt (sp_get (TensorShape_ptr_ shape))) s))).1.1 = 0.
Proof.
  intros [b Hb]. unfold Buffer_alloc, TensorShape_nbytes in Hb.
  unfold bind at 1 in Hb. rewrite call_invoke in Hb.
  destruct (decide (code (plaidml_shape_get_nbytes rt (sp_get (TensorShape_ptr_ shape))
                            (st_mem s, st_rt s)).1.1 = 0)) as [Hc|Hc];
    [|discriminate Hb].
  split; [exact Hc|].
  simpl in Hb. unfold bind at 1 in Hb. rewrite call_invoke in Hb.
  match type of Hb with
  | context [decide (code ?e = 0)] => destruct (decide (code e = 0)) as [Ha|Ha]
  end; [exact Ha | discriminate Hb].
Qed.

Lemma Buffer_alloc_ok_spec (device : string) (shape : TensorShape) (ids : nat) (cbs : ctrl)
    (s : state W) :
  let p := sp_get (TensorShape_ptr_ shape) in
  let get := plaidml_shape_get_nbytes rt p in
  let s1 := after_invoke (Cshape_get_nbytes p) get s in
  let alloc := plaidml_buffer_alloc rt (c_str device) (get (st_mem s, st_rt s)).1.2 in
  sp_ctrl (TensorShape_ptr_ shape) = Some ids ->
  st_heap s !! ids = Some cbs ->
  (ids < st_next s)%nat ->
  code (get (st_mem s, st_rt s)).1.1 = 0 ->
  code (alloc (st_mem s1, st_rt s1)).1.1 = 0 ->
  Buffer_alloc rt device shape s =
  (Ok {| Buffer_ptr_ := {| sp_get := (alloc (st_mem s1, st_rt s1)).1.2;
                           sp_ctrl := Some (st_next s) |};
         Buffer_shape_ := shape |},
   {| st_mem := (alloc (st_mem s1, st_rt s1)).2.1;
      st_rt := (alloc (st_mem s1, st_rt s1)).2.2;
      st_log := st_log s ++ [Cshape_get_nbytes p;
                             Cbuffer_alloc (c_str device) (get (st_mem s, st_rt s)).1.2];
      st_heap :=
        <[ids := {| cb_ptr := cb_ptr cbs; cb_deleter := cb_deleter cbs;
                    use_count := S (use_count cbs) |}]>
          (<[st_next s := {| cb_ptr := (alloc (st_mem s1, st_rt s1)).1.2;
                             cb_deleter := {| fn := buffer_free |};
                             use_count := 1 |}]> (st_heap s));
      st_next := S (st_next s) |}).
Proof.
  intros p get s1 alloc Hsp Hcb Hid Hc Ha. unfold Buffer_alloc.
  erewrite bind_ok
    by (unfold TensorShape_nbytes; rewrite call_invoke;
        rewrite decide_True by exact Hc; reflexivity).
  erewrite bind_ok
    by (rewrite call_invoke; rewrite decide_True by exact Ha; reflexivity).
  unfold make_plaidml_buffer. erewrite bind_ok by reflexivity.
  erewrite bind_ok.
  2:{ unfold TensorShape_copy. erewrite bind_ok; [reflexivity|].
      eapply shared_ptr_copy_live; [exact Hsp|].
      simpl. rewrite lookup_insert_ne by lia. exact Hcb. }
  simpl. rewrite <- app_assoc. destruct shape; reflexivity.
Qed.

(** X11. Allocating a buffer from a live shape and then destroying the
    [Buffer] leaks nothing and frees nothing twice: the control blocks are
    exactly those from before the allocation (the shape has its old owner
    count and is not released), and the only crossing the destructor makes,
    apart from the handling of a reported error, is
    [plaidml_buffer_free] on the pointer [plaidml_buffer_alloc] returned. *)
Theorem Buffer_alloc_then_dtor (device : string) (shape : TensorShape) (ids : nat)
    (cbs : ctrl) (s s1 : state W) (b : Buffer) :
  sp_ctrl (TensorShape_ptr_ shape) = Some ids ->
  st_heap s !! ids = Some cbs ->
  (1 <= use_count cbs)%nat ->
  (ids < st_next s)%nat ->
  st_heap s !! st_next s = None ->
  Buffer_alloc rt device shape s = (Ok b, s1) ->
  st_log s1 =
    st_log s ++ [Cshape_get_nbytes (sp_get (TensorShape_ptr_ shape));
                 Cbuffer_alloc (c_str device)
                   (plaidml_shape_get_nbytes rt (sp_get (TensorShape_ptr_ shape))
                      (st_mem s, st_rt s)).1.2] /\
  st_heap (Buffer_dtor rt b s1).2 = st_heap s /\
  exists tail,
    st_log (Buffer_dtor rt b s1).2 = st_log s1 ++ Cbuffer_free (Buffer_as_ptr b) :: tail /\
    Forall string_event tail.
Proof.
  intros Hsp Hcb Hcount Hid Hfresh Halloc.
  pose proof (Buffer_alloc_ok_codes device shape s) as Haux.
  destruct Haux as [Hc Ha]; [rewrite Halloc; eauto|].
  rewrite (Buffer_alloc_ok_spec device shape ids cbs s Hsp Hcb Hid Hc Ha) in Halloc.
  inversion Halloc as [[Hb Hs1]]. clear Halloc.
  split; [reflexivity|].
  unfold Buffer_dtor, TensorShape_dtor. simpl.
  erewrite bind_ok.
  2:{ eapply shared_ptr_dtor_shared; [exact Hsp | apply lookup_insert_eq | simpl; lia]. }
  simpl.
  match goal with
  | |- context [shared_ptr_dtor rt ?sp ?st] =>
      destruct (last_owner_outcome sp (st_next s)
                  {| cb_ptr := sp_get sp; cb_deleter := {| fn := buffer_free |};
                     use_count := 1 |} st eq_refl)
        as [_ [Hheap [_ [tail [Hlog Htail]]]]]
  end.
  { simpl. rewrite lookup_insert_ne by lia. rewrite lookup_insert_ne by lia.
    apply lookup_insert_eq. }
  { reflexivity. }
  split.
  - rewrite Hheap. simpl. rewrite insert_insert_eq.
    replace {| cb_ptr := cb_ptr cbs; cb_deleter := cb_deleter cbs; use_count := use_count cbs |}
      with cbs by (destruct cbs; reflexivity).
    rewrite delete_insert_ne by lia.
    rewrite delete_insert_eq, delete_id by exact Hfresh.
    apply insert_id. exact Hcb.
  - exists tail. split; [exact Hlog | exact Htail].
Qed.

Lemma count_call_none (Q : fcall -> Prop) ev (l : list fcall) :
  Forall Q l -> (forall e, Q e -> e <> ev) -> count_call ev l = 0%nat.
Proof.
  intros Hall Hne. unfold count_call.
  induction Hall as [|e l He _ IH]; [reflexivity|].
  rewrite filter_cons, decide_False by (apply Hne; exact He). exact IH.
Qed.

Lemma string_event_not_free e f q : string_event e -> e <> free_event f q.
Proof. intros He ->. destruct f; exact He. Qed.

Lemma TensorShape_default_ok_inv (s s1 : state W) (t : TensorShape) :
  TensorShape_default rt s = (Ok t, s1) ->
  sp_ctrl (TensorShape_ptr_ t) = Some (st_next s) /\
  st_heap s1 = <[st_next s := {| cb_ptr := sp_get (TensorShape_ptr_ t);
                                 cb_deleter := {| fn := shape_free |};
                                 use_count := 1 |}]> (st_heap s) /\
  st_log s1 = st_log s ++ [Cshape_alloc INVALID 0 [] []].
Proof.
  unfold TensorShape_default, shape_alloc. unfold bind at 1. rewrite call_invoke.
  case_decide; simpl; [|discriminate].
  intros Heq. inversion Heq. subst. simpl. repeat split.
Qed.

(** X12. Destroying a default-constructed [Buffer] never invokes
    [plaidml_buffer_free]: the only crossing its destructor makes, apart
    from the handling of a reported error, is [plaidml_shape_free] on the
    shape that the default constructor allocated, whose control block is
    gone afterwards. *)
Theorem default_buffer_dtor_frees_only_shape (s s1 : state W) (b : Buffer) :
  Buffer_default rt s = (Ok b, s1) ->
  st_log s1 = st_log s ++ [Cshape_alloc INVALID 0 [] []] /\
  exists tail,
    st_log (Buffer_dtor rt b s1).2 =
      st_log s1 ++ Cshape_free (TensorShape_as_ptr (Buffer_shape_ b)) :: tail /\
    Forall string_event tail /\
    (forall q, count_call (Cbuffer_free q)
                 (Cshape_free (TensorShape_as_ptr (Buffer_shape_ b)) :: tail) = 0%nat) /\
    st_heap (Buffer_dtor rt b s1).2 = delete (st_next s) (st_heap s).
Proof.
  intros Hdef. unfold Buffer_default in Hdef.
  unfold bind at 1 in Hdef.
  destruct (TensorShape_default rt s) as [[t| | |] s'] eqn:Ht; simpl in Hdef;
    try discriminate Hdef.
  inversion Hdef. subst b s'. clear Hdef.
  destruct (TensorShape_default_ok_inv s s1 t Ht) as [Hsp [Hheap Hlog]].
  split; [exact Hlog|].
  destruct (last_owner_outcome (TensorShape_ptr_ t) (st_next s)
              {| cb_ptr := sp_get (TensorShape_ptr_ t);
                 cb_deleter := {| fn := shape_free |}; use_count := 1 |} s1 Hsp)
    as [Hout [Hheap' [_ [tail [Hlog' Htail]]]]];
    [rewrite Hheap; apply lookup_insert_eq | reflexivity |].
  assert ((Buffer_dtor rt {| Buffer_ptr_ := shared_ptr_empty; Buffer_shape_ := t |} s1).2
          = (shared_ptr_dtor rt (TensorShape_ptr_ t) s1).2) as Hsame.
  { unfold Buffer_dtor, TensorShape_dtor, bind. simpl.
    destruct (shared_ptr_dtor rt (TensorShape_ptr_ t) s1) as [[[]| | |] s2]; reflexivity. }
  rewrite Hsame. exists tail. simpl in Hlog'.
  split; [exact Hlog'|]. split; [exact Htail|]. split.
  - intros q.
    apply (count_call_none (fun e => e = Cshape_free (sp_get (TensorShape_ptr_ t))
                                      \/ string_event e)).
    + constructor; [left; reflexivity|].
      eapply Forall_impl; [exact Htail | intros e He; right; exact He].
    + intros e [->|He]; [discriminate|].
      apply (string_event_not_free e buffer_free q He).
  - rewrite Hheap', Hheap. apply delete_insert_eq.
Qed.

(** *** Views *)

Lemma view_lifetime_of_map ev (f : foreign W Z) (op : M W View) (s : state W) :
  op s =
    (if decide (code (f (st_mem s, st_rt s)).1.1 = 0)
     then (Ok {| View_ptr_ := {| sp_get := (f (st_mem s, st_rt s)).1.2;
                                 sp_ctrl := Some (st_next s) |} |},
           mapped ev f s)
     else (Throw (failure_text rt f s), after_failure rt ev f s)) ->
  view_lifetime rt ev f op s.
Proof.
  intros Hspec. split.
  - intros Hc. rewrite decide_True in Hspec by exact Hc. rewrite Hspec.
    eexists. split; [reflexivity|]. split; [reflexivity|]. split; [reflexivity|].
    split; [reflexivity|]. simpl.
    destruct (last_owner_outcome
                {| sp_get := (f (st_mem s, st_rt s)).1.2; sp_ctrl := Some (st_next s) |}
                (st_next s) (view_block (f (st_mem s, st_rt s)).1.2) (mapped ev f s) eq_refl)
      as [_ [Hheap [_ [tail [Hlog Htail]]]]];
      [apply lookup_insert_eq | reflexivity |].
    unfold View_dtor. simpl. split.
    + rewrite Hheap. apply delete_insert_eq.
    + exists tail. split; [exact Hlog | exact Htail].
  - intros Hc. rewrite decide_False in Hspec by exact Hc. rewrite Hspec.
    repeat split.
Qed.

(** X13. For both map operations: a successful one makes a single crossing
    and returns a [View] that is the only owner of the view pointer the
    runtime returned (destroying the temporary handle releases nothing);
    destroying that [View] invokes [plaidml_view_free] on that pointer and
    removes its control block.  A failed one throws the runtime's message
    and creates no control block. *)
Theorem map_returns_sole_owner (b : Buffer) (s : state W) :
  view_lifetime rt (Cbuffer_mmap_current (sp_get (Buffer_ptr_ b)))
                (plaidml_buffer_mmap_current rt (sp_get (Buffer_ptr_ b)))
                (Buffer_mmap_current rt b) s /\
  view_lifetime rt (Cbuffer_mmap_discard (sp_get (Buffer_ptr_ b)))
                (plaidml_buffer_mmap_discard rt (sp_get (Buffer_ptr_ b)))
                (Buffer_mmap_discard rt b) s.
Proof.
  split; apply view_lifetime_of_map;
    [apply Buffer_mmap_current_spec | apply Buffer_mmap_discard_spec].
Qed.

(** *** The copy operations *)

Lemma scoped_view_cases {A} (P : fcall -> Prop) (body : M W A) (view : View) (id : nat)
    (v : Z) (s : state W) :
  confined P body ->
  sp_ctrl (View_ptr_ view) = Some id ->
  st_heap s !! id = Some (view_block v) ->
  ((scoped body (View_dtor rt view) s).1 = Undef /\
   exists pre, st_log (scoped body (View_dtor rt view) s).2 = st_log s ++ pre /\
               Forall P pre) \/
  (exists pre tail,
     st_log (scoped body (View_dtor rt view) s).2 =
       st_log s ++ pre ++ Cview_free v :: tail /\
     Forall P pre /\ Forall string_event tail /\
     st_heap (scoped body (View_dtor rt view) s).2 = delete id (st_heap s)).
Proof.
  intros Hconf Hsp Hcb.
  destruct (Hconf s) as [Hterm [Hheap [_ [pre [Hlog Hpre]]]]].
  assert (st_heap (body s).2 !! id = Some (view_block v)) as Hcb'
    by (rewrite Hheap; exact Hcb).
  destruct (last_owner_outcome (View_ptr_ view) id (view_block v) (body s).2 Hsp Hcb' eq_refl)
    as [_ [Hheap2 [_ [tail [Hlog2 Htail]]]]].
  simpl in Hlog2.
  assert (st_log (View_dtor rt view (body s).2).2 = st_log s ++ pre ++ Cview_free v :: tail)
    as Hfull by (unfold View_dtor; rewrite Hlog2, Hlog, <- app_assoc; reflexivity).
  assert (st_heap (View_dtor rt view (body s).2).2 = delete id (st_heap s))
    as Hheapfull by (unfold View_dtor; rewrite Hheap2, Hheap; reflexivity).
  unfold scoped. destruct (body s).1 as [a|m|m|] eqn:Hout.
  - right. exists pre, tail.
    destruct (View_dtor rt view (body s).2).1; simpl; auto.
  - right. exists pre, tail.
    destruct (View_dtor rt view (body s).2).1; simpl; auto.
  - exfalso. apply (Hterm m). reflexivity.
  - left. simpl. split; [reflexivity|]. exists pre. auto.
Qed.

Lemma view_args_confined P o v view :
  (forall e, view_read v e -> P e) ->
  sp_get (View_ptr_ view) = v ->
  confined P (operands o (View_data rt view) (View_size rt view)).
Proof.
  intros HP Hv. apply confined_operands.
  - apply confined_call; [apply HP; left; rewrite Hv; reflexivity|].
    intros e He. apply HP. right; right; exact He.
  - apply confined_call; [apply HP; right; left; rewrite Hv; reflexivity|].
    intros e He. apply HP. right; right; exact He.
Qed.

Lemma view_read_confined P o v :
  (forall e, view_read v e -> P e) ->
  forall view dst, sp_get (View_ptr_ view) = v ->
  confined P (args <- operands o (View_data rt view) (View_size rt view) ;;
              @memcpy W dst args.1 args.2).
Proof.
  intros HP view dst Hv.
  apply confined_bind; [apply (view_args_confined P o v); assumption|].
  intros args. apply confined_memcpy.
Qed.

Lemma view_use_confined o v view src :
  sp_get (View_ptr_ view) = v ->
  confined (view_use v) (args <- operands o (View_data rt view) (View_size rt view) ;;
                         memcpy args.1 src args.2 ;;;
                         View_writeback rt view).
Proof.
  intros Hv.
  assert (forall e, string_event e -> view_use v e) as Hstr
    by (intros e He; right; right; right; exact He).
  apply confined_bind.
  { apply (view_args_confined (view_use v) o v); [|exact Hv].
    intros e He. right. exact He. }
  intros args. apply confined_bind; [apply confined_memcpy|].
  intros _. apply confined_call_void; [left; rewrite Hv; reflexivity | exact Hstr].
Qed.

Lemma view_read_not_free v e : view_read v e -> e <> Cview_free v.
Proof. intros [->|[->|He]]; [discriminate | discriminate |]. intros ->. exact He. Qed.

Lemma view_use_not_free v e : view_use v e -> e <> Cview_free v.
Proof. intros [->|He]; [discriminate | apply view_read_not_free; exact He]. Qed.

Lemma string_event_not_view_free v e : string_event e -> e <> Cview_free v.
Proof. intros He ->. exact He. Qed.

Lemma count_view_free_once (P : fcall -> Prop) ev v pre tail :
  ev <> Cview_free v ->
  Forall P pre -> (forall e, P e -> e <> Cview_free v) ->
  Forall string_event tail ->
  count_call (Cview_free v) (ev :: pre ++ Cview_free v :: tail) = 1%nat.
Proof.
  intros Hev Hpre HP Htail.
  change (ev :: pre ++ Cview_free v :: tail)
    with ([ev] ++ pre ++ [Cview_free v] ++ tail).
  rewrite !count_call_app.
  rewrite (count_call_none P _ pre Hpre HP).
  rewrite (count_call_none string_event _ tail Htail (string_event_not_view_free v)).
  unfold count_call. rewrite !filter_cons, filter_nil.
  rewrite decide_False by exact Hev. rewrite decide_True by reflexivity. reflexivity.
Qed.

(** X14. Once the map call of [copy_into] has succeeded with view pointer
    [v], and unless the [memcpy] is undefined, the view is released on
    every path, also when [data()] or [size()] throws:
    [plaidml_view_free] is invoked on [v] exactly once, after crossings
    that only read through the view, and the view's control block is gone
    when [copy_into] returns or throws.  This holds in either order of
    evaluation of [memcpy]'s arguments. *)
Theorem copy_into_releases_view (o : eval_order) (b : Buffer) (dst : Z) (s : state W) :
  let p := sp_get (Buffer_ptr_ b) in
  let v := (plaidml_buffer_mmap_current rt p (st_mem s, st_rt s)).1.2 in
  code (plaidml_buffer_mmap_current rt p (st_mem s, st_rt s)).1.1 = 0 ->
  (Buffer_copy_into rt o b dst s).1 <> Undef ->
  exists pre tail,
    st_log (Buffer_copy_into rt o b dst s).2 =
      st_log s ++ Cbuffer_mmap_current p :: pre ++ Cview_free v :: tail /\
    Forall (view_read v) pre /\
    Forall string_event tail /\
    count_call (Cview_free v) (Cbuffer_mmap_current p :: pre ++ Cview_free v :: tail) = 1%nat /\
    st_heap (Buffer_copy_into rt o b dst s).2 = delete (st_next s) (st_heap s).
Proof.
  intros p v Hc Hdef. unfold Buffer_copy_into in *.
  pose proof (Buffer_mmap_current_spec rt b s) as Hmap.
  rewrite decide_True in Hmap by exact Hc.
  erewrite bind_ok in * by exact Hmap.
  match goal with
  | |- context [scoped ?body (View_dtor rt ?view) ?st] =>
      destruct (scoped_view_cases (view_read v) body view (st_next s) v st)
        as [[Hundef _]|[pre [tail [Hlog [Hpre [Htail Hheap]]]]]]
  end.
  - apply (view_read_confined (view_read v) o v); [auto | reflexivity].
  - reflexivity.
  - apply lookup_insert_eq.
  - contradiction.
  - exists pre, tail. split.
    { rewrite Hlog. simpl. rewrite <- app_assoc. reflexivity. }
    split; [exact Hpre|]. split; [exact Htail|]. split.
    + apply (count_view_free_once (view_read v));
        auto using view_read_not_free; discriminate.
    + rewrite Hheap. simpl. apply delete_insert_eq.
Qed.

(** X15. The same for [copy_from], where the crossings before the release
    may include the commit: once the map call has succeeded with view
    pointer [v], and unless the [memcpy] is undefined, [plaidml_view_free]
    is invoked on [v] exactly once, also when [data()], [size()] or
    [writeback()] throws, and the view's control block is gone
    afterwards.  This holds in either order of evaluation of [memcpy]'s
    arguments. *)
Theorem copy_from_releases_view (o : eval_order) (b : Buffer) (src : Z) (s : state W) :
  let p := sp_get (Buffer_ptr_ b) in
  let v := (plaidml_buffer_mmap_discard rt p (st_mem s, st_rt s)).1.2 in
  code (plaidml_buffer_mmap_discard rt p (st_mem s, st_rt s)).1.1 = 0 ->
  (Buffer_copy_from rt o b src s).1 <> Undef ->
  exists pre tail,
    st_log (Buffer_copy_from rt o b src s).2 =
      st_log s ++ Cbuffer_mmap_discard p :: pre ++ Cview_free v :: tail /\
    Forall (view_use v) pre /\
    Forall string_event tail /\
    count_call (Cview_free v) (Cbuffer_mmap_discard p :: pre ++ Cview_free v :: tail) = 1%nat /\
    st_heap (Buffer_copy_from rt o b src s).2 = delete (st_next s) (st_heap s).
Proof.
  intros p v Hc Hdef. unfold Buffer_copy_from in *.
  pose proof (Buffer_mmap_discard_spec rt b s) as Hmap.
  rewrite decide_True in Hmap by exact Hc.
  erewrite bind_ok in * by exact Hmap.
  match goal with
  | |- context [scoped ?body (View_dtor rt ?view) ?st] =>
      destruct (scoped_view_cases (view_use v) body view (st_next s) v st)
        as [[Hundef _]|[pre [tail [Hlog [Hpre [Htail Hheap]]]]]]
  end.
  - apply view_use_confined. reflexivity.
  - reflexivity.
  - apply lookup_insert_eq.
  - contradiction.
  - exists pre, tail. split.
    { rewrite Hlog. simpl. rewrite <- app_assoc. reflexivity. }
    split; [exact Hpre|]. split; [exact Htail|]. split.
    + apply (count_view_free_once (view_use v));
        auto using view_use_not_free; discriminate.
    + rewrite Hheap. simpl. apply delete_insert_eq.
Qed.

Lemma view_read_read_only p v e : view_read v e -> read_only_event p e.
Proof.
  intros [->|[->|He]]; [right; left; eauto | right; left; eauto | right; right; exact He].
Qed.

(** X16. [copy_into] is a read-only path, in every state and whatever the
    runtime answers: all the crossings it makes are the current-mode map,
    [data()], [size()], the release of the view and the handling of
    reported errors, in either order of evaluation of [memcpy]'s
    arguments.  In particular it never commits ([plaidml_view_writeback]),
    never maps in discard mode and never frees the buffer. *)
Theorem copy_into_is_read_only (o : eval_order) (b : Buffer) (dst : Z) (s : state W) :
  exists added,
    st_log (Buffer_copy_into rt o b dst s).2 = st_log s ++ added /\
    Forall (read_only_event (sp_get (Buffer_ptr_ b))) added /\
    (forall w, count_call (Cview_writeback w) added = 0%nat) /\
    (forall w, count_call (Cbuffer_mmap_discard w) added = 0%nat) /\
    (forall w, count_call (Cbuffer_free w) added = 0%nat).
Proof.
  assert (exists added,
            st_log (Buffer_copy_into rt o b dst s).2 = st_log s ++ added /\
            Forall (read_only_event (sp_get (Buffer_ptr_ b))) added) as [added [Hlog Hall]].
  { unfold Buffer_copy_into.
    pose proof (Buffer_mmap_current_spec rt b s) as Hmap.
    destruct (decide (code (plaidml_buffer_mmap_current rt (sp_get (Buffer_ptr_ b))
                              (st_mem s, st_rt s)).1.1 = 0)) as [Hc|Hc].
    - erewrite bind_ok by exact Hmap.
      match goal with
      | |- context [scoped ?body (View_dtor rt ?view) ?st] =>
          destruct (scoped_view_cases (view_read (sp_get (View_ptr_ view))) body view
                      (st_next s) (sp_get (View_ptr_ view)) st
                      (view_read_confined _ o (sp_get (View_ptr_ view)) (fun e He => He)
                                          view dst eq_refl)
                      eq_refl ltac:(apply lookup_insert_eq))
            as [[_ [pre [Hlog Hpre]]]|[pre [tail [Hlog [Hpre [Htail _]]]]]]
      end.
      + eexists. split; [rewrite Hlog; simpl; rewrite <- app_assoc; reflexivity|].
        constructor; [left; reflexivity|].
        eapply Forall_impl; [exact Hpre | intros e; apply view_read_read_only].
      + eexists. split; [rewrite Hlog; simpl; rewrite <- app_assoc; reflexivity|].
        constructor; [left; reflexivity|].
        apply Forall_app. split.
        * eapply Forall_impl; [exact Hpre | intros e; apply view_read_read_only].
        * constructor; [right; left; eauto|].
          eapply Forall_impl; [exact Htail | intros e He; right; right; exact He].
    - erewrite bind_throw by exact Hmap. simpl.
      eexists. split; [reflexivity|].
      constructor; [left; reflexivity|].
      repeat constructor; right; right; exact I. }
  exists added. split; [exact Hlog|]. split; [exact Hall|].
  repeat split; intros w;
    apply (count_call_none (read_only_event (sp_get (Buffer_ptr_ b))) _ added Hall);
    intros e [->|[[v [->|[->| ->]]]|He]]; try discriminate; intros ->; exact He.
Qed.

(** *** What a successful copy consists of *)

Lemma bind_Ok_inv {A B} (c : M W A) (k : A -> M W B) s b :
  (bind c k s).1 = Ok b ->
  exists a, (c s).1 = Ok a /\ bind c k s = k a (c s).2.
Proof.
  unfold bind. destruct (c s).1 as [a| | |]; simpl; try discriminate.
  intros _. exists a. split; reflexivity.
Qed.

Lemma call_Ok_inv {R} ev (f : foreign W R) s r :
  (call rt (invoke ev f) s).1 = Ok r ->
  call rt (invoke ev f) s = (Ok (f (st_mem s, st_rt s)).1.2, after_invoke ev f s).
Proof.
  rewrite call_invoke. case_decide; [reflexivity | discriminate].
Qed.

Lemma scoped_Ok_inv {A} (body : M W A) (dtor : M W unit) s a :
  (scoped body dtor s).1 = Ok a ->
  (body s).1 = Ok a /\ (dtor (body s).2).1 = Ok tt /\
  (scoped body dtor s).2 = (dtor (body s).2).2.
Proof.
  unfold scoped. destruct (body s).1 as [a'| | |]; simpl; try discriminate.
  - destruct (dtor (body s).2).1 as [[]| | |]; simpl; try discriminate.
    intros H. inversion H. auto.
  - destruct (dtor (body s).2).1; simpl; discriminate.
Qed.

Lemma memcpy_keeps_log dst src n (s : state W) :
  st_log (memcpy dst src n s).2 = st_log s /\ st_heap (memcpy dst src n s).2 = st_heap s.
Proof.
  unfold memcpy. destruct (st_mem s !! src); [destruct (st_mem s !! dst); [case_decide|]|];
    split; reflexivity.
Qed.

Lemma last_owner_Ok_log sp id cb s :
  sp_ctrl sp = Some id -> st_heap s !! id = Some cb -> use_count cb = 1%nat ->
  (shared_ptr_dtor rt sp s).1 = Ok tt ->
  st_log (shared_ptr_dtor rt sp s).2 =
    st_log s ++ [free_event (fn (cb_deleter cb)) (cb_ptr cb)].
Proof.
  intros Hsp Hcb Hone.
  rewrite (shared_ptr_dtor_last rt sp id cb s Hsp Hcb Hone).
  unfold noexcept. rewrite Deleter_call_spec.
  case_decide; simpl; [reflexivity | discriminate].
Qed.

Lemma view_args_Ok_inv o (view : View) s args :
  (operands o (View_data rt view) (View_size rt view) s).1 = Ok args ->
  st_log (operands o (View_data rt view) (View_size rt view) s).2 =
    st_log s ++ arg_crossings o (sp_get (View_ptr_ view)) /\
  st_heap (operands o (View_data rt view) (View_size rt view) s).2 = st_heap s.
Proof.
  intros Hok. destruct o; unfold operands in Hok |- *.
  - destruct (bind_Ok_inv _ _ _ _ Hok) as [a [Ha _]].
    pose proof (call_Ok_inv _ _ _ _ Ha) as Hst1. clear Ha.
    erewrite bind_ok in Hok by exact Hst1. erewrite bind_ok by exact Hst1.
    destruct (bind_Ok_inv _ _ _ _ Hok) as [b0 [Hb _]].
    pose proof (call_Ok_inv _ _ _ _ Hb) as Hst2. clear Hb.
    erewrite bind_ok by exact Hst2. simpl.
    split; [rewrite <- app_assoc; reflexivity | reflexivity].
  - destruct (bind_Ok_inv _ _ _ _ Hok) as [b0 [Hb _]].
    pose proof (call_Ok_inv _ _ _ _ Hb) as Hst1. clear Hb.
    erewrite bind_ok in Hok by exact Hst1. erewrite bind_ok by exact Hst1.
    destruct (bind_Ok_inv _ _ _ _ Hok) as [a [Ha _]].
    pose proof (call_Ok_inv _ _ _ _ Ha) as Hst2. clear Ha.
    erewrite bind_ok by exact Hst2. simpl.
    split; [rewrite <- app_assoc; reflexivity | reflexivity].
Qed.

(** X17. A copy that returns normally has made exactly these crossings on
    the view pointer [v] the map call returned.  [copy_into]: first the
    current-mode map, then [data()] and [size()] in the order in which
    [memcpy]'s arguments are evaluated, and last the release of the view.
    [copy_from]: first the discard-mode map, then [data()] and [size()] in
    the order of evaluation, then the commit, and last the release of the
    view.  So in either order of evaluation a successful [copy_from] has
    committed, once, before the view was released. *)
Theorem successful_copy_crossings (o : eval_order) (b : Buffer) (ptr : Z) (s : state W) :
  let p := sp_get (Buffer_ptr_ b) in
  ((Buffer_copy_into rt o b ptr s).1 = Ok tt ->
   let v := (plaidml_buffer_mmap_current rt p (st_mem s, st_rt s)).1.2 in
   st_log (Buffer_copy_into rt o b ptr s).2 =
     st_log s ++ Cbuffer_mmap_current p :: arg_crossings o v ++ [Cview_free v]) /\
  ((Buffer_copy_from rt o b ptr s).1 = Ok tt ->
   let v := (plaidml_buffer_mmap_discard rt p (st_mem s, st_rt s)).1.2 in
   st_log (Buffer_copy_from rt o b ptr s).2 =
     st_log s ++ Cbuffer_mmap_discard p :: arg_crossings o v ++
       [Cview_writeback v; Cview_free v]).
Proof.
  intros p. split.
  - intros Hok v.
    pose proof (Buffer_mmap_current_spec rt b s) as Hmap.
    destruct (decide (code (plaidml_buffer_mmap_current rt (sp_get (Buffer_ptr_ b))
                              (st_mem s, st_rt s)).1.1 = 0)) as [Hc|Hc].
    2:{ exfalso. unfold Buffer_copy_into in Hok.
        erewrite bind_throw in Hok by exact Hmap. discriminate Hok. }
    unfold Buffer_copy_into in Hok |- *.
    erewrite bind_ok in Hok by exact Hmap. erewrite bind_ok by exact Hmap.
    destruct (scoped_Ok_inv _ _ _ _ Hok) as [Hbody [Hdtor Hstate]].
    rewrite Hstate. clear Hok Hstate.
    destruct (bind_Ok_inv _ _ _ _ Hbody) as [args [Hargs Hrest]].
    rewrite Hrest in Hdtor |- *. clear Hbody Hrest.
    destruct (view_args_Ok_inv _ _ _ _ Hargs) as [Halog Haheap].
    match type of Hdtor with
    | (View_dtor rt ?view (memcpy ?d ?sr ?n ?st).2).1 = _ =>
        destruct (memcpy_keeps_log d sr n st) as [Hmlog Hmheap];
        pose proof (last_owner_Ok_log (View_ptr_ view) (st_next s) (view_block v)
                      (memcpy d sr n st).2 eq_refl) as Hlog
    end.
    unfold View_dtor. rewrite Hlog; [| |reflexivity|exact Hdtor].
    + rewrite Hmlog, Halog. simpl. rewrite <- !app_assoc. reflexivity.
    + rewrite Hmheap, Haheap. simpl. apply lookup_insert_eq.
  - intros Hok v.
    pose proof (Buffer_mmap_discard_spec rt b s) as Hmap.
    destruct (decide (code (plaidml_buffer_mmap_discard rt (sp_get (Buffer_ptr_ b))
                              (st_mem s, st_rt s)).1.1 = 0)) as [Hc|Hc].
    2:{ exfalso. unfold Buffer_copy_from in Hok.
        erewrite bind_throw in Hok by exact Hmap. discriminate Hok. }
    unfold Buffer_copy_from in Hok |- *.
    erewrite bind_ok in Hok by exact Hmap. erewrite bind_ok by exact Hmap.
    destruct (scoped_Ok_inv _ _ _ _ Hok) as [Hbody [Hdtor Hstate]].
    rewrite Hstate. clear Hok Hstate.
    destruct (bind_Ok_inv _ _ _ _ Hbody) as [args [Hargs Hrest]].
    rewrite Hrest in Hbody, Hdtor |- *. clear Hrest.
    destruct (view_args_Ok_inv _ _ _ _ Hargs) as [Halog Haheap].
    destruct (bind_Ok_inv _ _ _ _ Hbody) as [[] [Hcopy Hrest]].
    rewrite Hrest in Hbody, Hdtor |- *. clear Hrest.
    match type of Hcopy with
    | (memcpy ?d ?sr ?n ?st).1 = _ =>
        destruct (memcpy_keeps_log d sr n st) as [Hmlog Hmheap]
    end.
    unfold View_writeback in Hbody, Hdtor |- *.
    rewrite call_void_is_call in Hbody, Hdtor |- *.
    pose proof (call_Ok_inv _ _ _ _ Hbody) as Hst4.
    rewrite Hst4 in Hdtor |- *. clear Hst4 Hbody.
    match type of Hdtor with
    | (View_dtor rt ?view ?st).1 = _ =>
        pose proof (last_owner_Ok_log (View_ptr_ view) (st_next s) (view_block v)
                      st eq_refl) as Hlog
    end.
    unfold View_dtor. rewrite Hlog; [| |reflexivity|exact Hdtor].
    + simpl. rewrite Hmlog, Halog. simpl. rewrite <- !app_assoc. reflexivity.
    + simpl. rewrite Hmheap, Haheap. simpl. apply lookup_insert_eq.
Qed.

(** X18. A [TensorShape] built from extents and strides of equal length
    owns the pointer [plaidml_shape_alloc] returned, through a fresh
    control block with one owner; destroying it invokes
    [plaidml_shape_free] on that pointer and removes the control block.
    When [plaidml_shape_alloc] fails the constructor throws the runtime's
    message and no control block exists afterwards. *)
Theorem TensorShape_lifetime (dtype : DType) (sizes strides : list Z) (s : state W) :
  length sizes = length strides ->
  let f := plaidml_shape_alloc rt dtype (Z.of_nat (length sizes)) sizes strides in
  let ev := Cshape_alloc dtype (Z.of_nat (length sizes)) sizes strides in
  let r := TensorShape_sizes_strides rt dtype sizes strides s in
  (code (f (st_mem s, st_rt s)).1.1 = 0 ->
     exists t,
       r.1 = Ok t /\
       TensorShape_as_ptr t = (f (st_mem s, st_rt s)).1.2 /\
       st_log r.2 = st_log s ++ [ev] /\
       st_heap r.2 =
         <[st_next s := {| cb_ptr := TensorShape_as_ptr t;
                           cb_deleter := {| fn := shape_free |};
                           use_count := 1 |}]> (st_heap s) /\
       st_heap (TensorShape_dtor rt t r.2).2 = delete (st_next s) (st_heap s) /\
       exists tail,
         st_log (TensorShape_dtor rt t r.2).2 =
           st_log r.2 ++ Cshape_free (TensorShape_as_ptr t) :: tail /\
         Forall string_event tail) /\
  (code (f (st_mem s, st_rt s)).1.1 <> 0 ->
     r.1 = Throw (failure_text rt f s) /\
     st_heap r.2 = st_heap s /\ st_next r.2 = st_next s).
Proof.
  intros Hlen f ev r. subst r. unfold TensorShape_sizes_strides.
  rewrite decide_False by (intros Hne; apply Hne; exact Hlen).
  unfold shape_alloc. split.
  - intros Hc.
    erewrite bind_ok
      by (rewrite call_invoke; rewrite decide_True by exact Hc; reflexivity).
    unfold make_plaidml_shape. erewrite bind_ok by reflexivity.
    eexists. split; [reflexivity|]. split; [reflexivity|]. split; [reflexivity|].
    split; [reflexivity|]. simpl.
    destruct (last_owner_outcome
                {| sp_get := (f (st_mem s, st_rt s)).1.2; sp_ctrl := Some (st_next s) |}
                (st_next s)
                {| cb_ptr := (f (st_mem s, st_rt s)).1.2;
                   cb_deleter := {| fn := shape_free |}; use_count := 1 |}
                {| st_mem := (f (st_mem s, st_rt s)).2.1;
                   st_rt := (f (st_mem s, st_rt s)).2.2;
                   st_log := st_log s ++ [ev];
                   st_heap := <[st_next s := {| cb_ptr := (f (st_mem s, st_rt s)).1.2;
                                                cb_deleter := {| fn := shape_free |};
                                                use_count := 1 |}]> (st_heap s);
                   st_next := S (st_next s) |} eq_refl)
      as [_ [Hheap [_ [tail [Hlog Htail]]]]];
      [apply lookup_insert_eq | reflexivity |].
    unfold TensorShape_dtor. simpl. split.
    + etransitivity; [exact Hheap|]. apply delete_insert_eq.
    + exists tail. split; [exact Hlog | exact Htail].
  - intros Hc.
    erewrite bind_throw
      by (rewrite call_invoke; rewrite decide_False by exact Hc; reflexivity).
    repeat split.
Qed.

End MoreWrapperFacts.

(** ** More concrete runs on the demo runtime *)

Lemma Settings_get_releases_once_witness :
  (Settings_get demo_runtime demo_settings_get "verbose" (initial ∅)).1 =
    Throw "no such setting: verbose" /\
  st_log (Settings_get demo_runtime demo_settings_get "verbose" (initial ∅)).2 =
    [Cstring_ptr 1; Cstring_free 1].
Proof.
  destruct (Settings_get_releases_once demo_runtime demo_settings_get "verbose"
              (initial ∅) (demo_settings_get "verbose" (initial ∅)).2
              (demo_settings_get "verbose" (initial ∅)).1.1
              (demo_settings_get "verbose" (initial ∅)).1.2 eq_refl)
    as [Hout [Hlog _]].
  split; [exact Hout | exact Hlog].
Defined.

Lemma TensorShape_copy_then_drop_witness :
  (t' <- TensorShape_copy (Buffer_shape_ demo_buffer) ;;
   TensorShape_dtor demo_runtime t') (demo_alloc (initial ∅)).2 =
  (Ok tt, (demo_alloc (initial ∅)).2).
Proof.
  refine (proj1 (TensorShape_copy_then_drop demo_runtime (Buffer_shape_ demo_buffer) 0%nat
                   {| cb_ptr := 1; cb_deleter := {| fn := shape_free |}; use_count := 1 |}
                   (demo_alloc (initial ∅)).2 eq_refl _ _)).
  - vm_compute. reflexivity.
  - simpl. lia.
Defined.

Lemma adopting_twice_frees_twice_witness :
  st_log (Buffer_adopt 77 (Buffer_shape_ demo_buffer)
            (Buffer_adopt 77 (Buffer_shape_ demo_buffer) (demo_alloc (initial ∅)).2).2).2 =
    st_log (demo_alloc (initial ∅)).2 /\
  st_heap (Buffer_adopt 77 (Buffer_shape_ demo_buffer)
             (Buffer_adopt 77 (Buffer_shape_ demo_buffer) (demo_alloc (initial ∅)).2).2).2
    !! 3%nat =
    Some {| cb_ptr := 77; cb_deleter := {| fn := buffer_free |}; use_count := 1 |}.
Proof.
  destruct (adopting_twice_frees_twice demo_runtime 77 (Buffer_shape_ demo_buffer) 0%nat
              {| cb_ptr := 1; cb_deleter := {| fn := shape_free |}; use_count := 1 |}
              (demo_alloc (initial ∅)).2 eq_refl)
    as [_ [_ [Hlog [_ [Hblock _]]]]].
  - vm_compute. reflexivity.
  - vm_compute. lia.
  - split; [exact Hlog | exact Hblock].
Defined.

Lemma Buffer_alloc_failure_is_clean_witness :
  (Buffer_alloc demo_runtime "cpu"
     {| TensorShape_ptr_ := {| sp_get := 9; sp_ctrl := None |} |} (initial ∅)).1 =
    Throw "invalid shape handle" /\
  st_heap (Buffer_alloc demo_runtime "cpu"
             {| TensorShape_ptr_ := {| sp_get := 9; sp_ctrl := None |} |} (initial ∅)).2 = ∅.
Proof.
  pose proof (Buffer_alloc_failure_is_clean demo_runtime "cpu"
                {| TensorShape_ptr_ := {| sp_get := 9; sp_ctrl := None |} |} (initial ∅))
    as [Hfail [_ Hclean]].
  destruct Hfail as [Hout _]; [vm_compute; discriminate|].
  split; [exact Hout|]. exact (proj1 (Hclean _ Hout)).
Defined.

Lemma Buffer_alloc_then_dtor_witness :
  st_heap (Buffer_dtor demo_runtime demo_buffer
             (Buffer_alloc demo_runtime "cpu" (Buffer_shape_ demo_buffer)
                (TensorShape_sizes demo_runtime INT8 [4] (initial ∅)).2).2).2 =
  st_heap (TensorShape_sizes demo_runtime INT8 [4] (initial ∅)).2.
Proof.
  refine (proj1 (proj2 (Buffer_alloc_then_dtor demo_runtime "cpu" (Buffer_shape_ demo_buffer)
                   0%nat
                   {| cb_ptr := 1; cb_deleter := {| fn := shape_free |}; use_count := 1 |}
                   (TensorShape_sizes demo_runtime INT8 [4] (initial ∅)).2
                   (Buffer_alloc demo_runtime "cpu" (Buffer_shape_ demo_buffer)
                      (TensorShape_sizes demo_runtime INT8 [4] (initial ∅)).2).2
                   demo_buffer eq_refl _ _ _ _ _)));
    try (vm_compute; reflexivity); try (vm_compute; lia).
Defined.

Lemma default_buffer_dtor_frees_only_shape_witness :
  exists tail,
    st_log (Buffer_dtor demo_runtime
              {| Buffer_ptr_ := shared_ptr_empty;
                 Buffer_shape_ := {| TensorShape_ptr_ := {| sp_get := 1; sp_ctrl := Some 0%nat |} |} |}
              (Buffer_default demo_runtime (initial ∅)).2).2 =
      st_log (Buffer_default demo_runtime (initial ∅)).2 ++ Cshape_free 1 :: tail /\
    Forall string_event tail.
Proof.
  destruct (default_buffer_dtor_frees_only_shape demo_runtime (initial ∅)
              (Buffer_default demo_runtime (initial ∅)).2
              {| Buffer_ptr_ := shared_ptr_empty;
                 Buffer_shape_ := {| TensorShape_ptr_ := {| sp_get := 1; sp_ctrl := Some 0%nat |} |} |})
    as [_ [tail [Hlog [Htail _]]]].
  - vm_compute. reflexivity.
  - exists tail. split; [exact Hlog | exact Htail].
Defined.

Lemma copy_into_releases_view_witness :
  exists pre tail,
    st_log (Buffer_copy_into demo_runtime right_first demo_buffer 200
              (demo_alloc (initial demo_memory)).2).2 =
      st_log (demo_alloc (initial demo_memory)).2 ++
        Cbuffer_mmap_current 2 :: pre ++ Cview_free 3 :: tail /\
    Forall (view_read 3) pre.
Proof.
  destruct (copy_into_releases_view demo_runtime right_first demo_buffer 200
              (demo_alloc (initial demo_memory)).2)
    as [pre [tail [Hlog [Hpre _]]]].
  - vm_compute. reflexivity.
  - vm_compute. discriminate.
  - exists pre, tail. split; [exact Hlog | exact Hpre].
Defined.

Lemma copy_from_releases_view_witness :
  exists pre tail,
    st_log (Buffer_copy_from demo_runtime right_first demo_buffer 100
              (demo_alloc (initial demo_memory)).2).2 =
      st_log (demo_alloc (initial demo_memory)).2 ++
        Cbuffer_mmap_discard 2 :: pre ++ Cview_free 3 :: tail /\
    Forall (view_use 3) pre.
Proof.
  destruct (copy_from_releases_view demo_runtime right_first demo_buffer 100
              (demo_alloc (initial demo_memory)).2)
    as [pre [tail [Hlog [Hpre _]]]].
  - vm_compute. reflexivity.
  - vm_compute. discriminate.
  - exists pre, tail. split; [exact Hlog | exact Hpre].
Defined.

Lemma successful_copy_crossings_witness :
  st_log (Buffer_copy_from demo_runtime right_first demo_buffer 100
            (demo_alloc (initial demo_memory)).2).2 =
    st_log (demo_alloc (initial demo_memory)).2 ++
      [Cbuffer_mmap_discard 2; Cview_size 3; Cview_data 3; Cview_writeback 3; Cview_free 3] /\
  st_log (Buffer_copy_from demo_runtime left_first demo_buffer 100
            (demo_alloc (initial demo_memory)).2).2 =
    st_log (demo_alloc (initial demo_memory)).2 ++
      [Cbuffer_mmap_discard 2; Cview_data 3; Cview_size 3; Cview_writeback 3; Cview_free 3].
Proof.
  split.
  - refine (proj2 (successful_copy_crossings demo_runtime right_first demo_buffer 100
                     (demo_alloc (initial demo_memory)).2) _).
    vm_compute. reflexivity.
  - refine (proj2 (successful_copy_crossings demo_runtime left_first demo_buffer 100
                     (demo_alloc (initial demo_memory)).2) _).
    vm_compute. reflexivity.
Defined.

Lemma TensorShape_lifetime_witness :
  exists t,
    (TensorShape_sizes_strides demo_runtime FLOAT32 [2; 3] [3; 1] (initial ∅)).1 = Ok t /\
    TensorShape_as_ptr t = 1.
Proof.
  destruct (TensorShape_lifetime demo_runtime FLOAT32 [2; 3] [3; 1] (initial ∅) eq_refl)
    as [Hok _].
  destruct Hok as [t [Hout [Hptr _]]]; [vm_compute; reflexivity|].
  exists t. split; [exact Hout | exact Hptr].
Defined.

Lemma map_returns_sole_owner_witness :
  exists view,
    (Buffer_mmap_discard demo_runtime demo_buffer (demo_alloc (initial ∅)).2).1 = Ok view /\
    sp_get (View_ptr_ view) = 3.
Proof.
  destruct (proj2 (map_returns_sole_owner demo_runtime demo_buffer (demo_alloc (initial ∅)).2))
    as [Hok _].
  destruct Hok as [view [Hout [Hptr _]]]; [vm_compute; reflexivity|].
  exists view. split; [exact Hout | exact Hptr].
Defined.
